(** * Todd-Coxeter coset enumeration: a shallow embedding of [toddcox.py]

    The development follows the source file top-down: the [Cosets] table
    class, the [Row] scanner, the [solve] driver and the two presentation
    builders [coxeter] and [schlafli].

    Modelling conventions.
    - Python lists are Rocq lists read with stdpp's [!!]; a subscript that
      is out of range raises [IndexError].
    - Coset numbers and generator indices only ever come from [len(...)],
      from [list.index] or from the table itself, so they are [nat].
      The window bounds [left] and [right] of a row are changed by
      [+= 1] and [-= 1]; they are [Z], and a subscript by them follows
      Python's rule for negative subscripts.
    - A generator symbol is one character ([ascii]) and a word is a list of
      characters, the way Python iterates a [str].
    - Exceptions abort the whole computation; functions that can raise
      return a [result] or an [outcome].
    - [solve] need not terminate: its outer loop takes a [fuel] argument
      and answers [Paused] when the fuel is used up.
    - The enumeration layer keeps a ghost [log]: the value of the table
      after the constructor and after each mutating call ([set],
      [add_coset]) made by [solve] or [Row.learn], oldest first.  Erasing
      the log leaves the source's behaviour unchanged; it only serves to
      state properties of intermediate states. *)

From Stdlib Require Import ZArith Ascii.
From stdpp Require Import base list gmap strings.

Local Open Scope Z_scope.
Local Open Scope nat_scope.

(** ** Exceptions and the two result types *)

Inductive exn : Set := ValueError | IndexError | AssertionError.

Global Instance exn_eq_dec : EqDecision exn.
Proof. solve_decision. Defined.

Inductive result (A : Type) : Type :=
  | Ok (a : A)
  | Err (e : exn).
Arguments Ok {A} a.
Arguments Err {A} e.

Definition rbind {A B} (m : result A) (f : A → result B) : result B :=
  match m with
  | Ok a => f a
  | Err e => Err e
  end.

(** [l[i]] for a non-negative subscript. *)
Definition index {A} (l : list A) (i : nat) : result A :=
  match l !! i with
  | Some x => Ok x
  | None => Err IndexError
  end.

(** [l[i]] for an integer subscript: negative subscripts count from the
    end, and anything outside [-len, len) raises. *)
Definition py_index {A} (l : list A) (i : Z) : result A :=
  if decide (0 ≤ i)%Z then index l (Z.to_nat i)
  else if decide (- Z.of_nat (length l) ≤ i)%Z
       then index l (Z.to_nat (Z.of_nat (length l) + i))
       else Err IndexError.

(** ** class Cosets *)

Record Cosets : Type := mkCosets {
  names : list ascii;
  n_gens : nat;
  cosets : list (list (option nat));
  rcosets : list (list (option nat))
}.

Global Instance Cosets_eq_dec : EqDecision Cosets.
Proof. solve_decision. Defined.

(** [Cosets.__len__] *)
Definition len (c : Cosets) : nat := length (cosets c).

(** [Cosets.get] *)
Definition get (c : Cosets) (coset gen : nat) : result (option nat) :=
  rbind (index (cosets c) coset) (λ row, index row gen).

(** [Cosets.rget] *)
Definition rget (c : Cosets) (gen target : nat) : result (option nat) :=
  rbind (index (rcosets c) target) (λ row, index row gen).

(** [tab[i][j] = v]: both subscripts are checked. *)
Definition store (tab : list (list (option nat))) (i j v : nat)
  : result (list (list (option nat))) :=
  rbind (index tab i) (λ row,
    if decide (j < length row)
    then Ok (<[i := <[j := Some v]> row]> tab)
    else Err IndexError).

(** [Cosets.set]: the forward write, then the reverse write. *)
Definition set (c : Cosets) (coset gen target : nat) : result Cosets :=
  rbind (store (cosets c) coset gen target) (λ fwd,
  rbind (store (rcosets c) target gen coset) (λ rev,
    Ok (mkCosets (names c) (n_gens c) fwd rev))).

(** [Cosets.add_row] *)
Definition add_row (c : Cosets) : Cosets :=
  mkCosets (names c) (n_gens c)
    (cosets c ++ [replicate (n_gens c) None])
    (rcosets c ++ [replicate (n_gens c) None]).

(** [Cosets.__init__] *)
Definition Cosets_init (n : nat) (nms : list ascii) : Cosets :=
  add_row (mkCosets nms n [] []).

(** The inner [for gen, target in enumerate(coset)] of [add_coset]:
    the first column, counted from [gen], that holds [None]. *)
Fixpoint first_none (row : list (option nat)) (gen : nat) : option nat :=
  match row with
  | [] => None
  | None :: _ => Some gen
  | Some _ :: row' => first_none row' (S gen)
  end.

(** The outer [for i, coset in enumerate(self.cosets)]: the first
    undefined entry in row-major order. *)
Fixpoint first_undefined (tab : list (list (option nat))) (i : nat)
  : option (nat * nat) :=
  match tab with
  | [] => None
  | row :: tab' =>
      match first_none row 0 with
      | Some gen => Some (i, gen)
      | None => first_undefined tab' (S i)
      end
  end.

(** [Cosets.add_coset] *)
Definition add_coset (c : Cosets) : result (Cosets * bool) :=
  match first_undefined (cosets c) 0 with
  | Some (i, gen) =>
      let target := length (cosets c) in
      rbind (set (add_row c) i gen target) (λ c', Ok (c', true))
  | None => Ok (c, false)
  end.

(** ** class Row *)

Record Row : Type := mkRow {
  rel : list nat;
  left : Z;
  right : Z;
  left_coset : nat;
  right_target : nat
}.

Global Instance Row_eq_dec : EqDecision Row.
Proof. solve_decision. Defined.

(** [Row.__init__] *)
Definition Row_init (rl : list nat) (i : nat) : Row :=
  mkRow rl 0 (Z.of_nat (length rl)) i i.

(** The properties [left_gen] and [right_gen]. *)
Definition left_gen (r : Row) : result nat := py_index (rel r) (left r).
Definition right_gen (r : Row) : result nat := py_index (rel r) (right r - 1).

(** ** The enumeration layer: outcomes with a ghost log *)

Inductive outcome (A : Type) : Type :=
  | Done (a : A) (log : list Cosets)
  | Raise (e : exn) (log : list Cosets)
  | Paused (log : list Cosets).
Arguments Done {A} a log.
Arguments Raise {A} e log.
Arguments Paused {A} log.

Definition ret {A} (a : A) : outcome A := Done a [].

Definition bind {A B} (m : outcome A) (f : A → outcome B) : outcome B :=
  match m with
  | Done a l =>
      match f a with
      | Done b l' => Done b (l ++ l')
      | Raise e l' => Raise e (l ++ l')
      | Paused l' => Paused (l ++ l')
      end
  | Raise e l => Raise e l
  | Paused l => Paused l
  end.

Definition lift {A} (m : result A) : outcome A :=
  match m with
  | Ok a => Done a []
  | Err e => Raise e []
  end.

(** A mutating call: the new table is recorded. *)
Definition mutate (m : result Cosets) : outcome Cosets :=
  match m with
  | Ok c => Done c [c]
  | Err e => Raise e []
  end.

Definition log_of {A} (m : outcome A) : list Cosets :=
  match m with
  | Done _ l | Raise _ l | Paused l => l
  end.

Declare Scope outcome_scope.
Delimit Scope outcome_scope with outcome.
Notation "'let*' x := m 'in' k" := (bind m (λ x, k))
  (at level 10, x pattern, m at level 100, k at level 200,
   format "'[v' 'let*'  x  :=  m  'in' '/' k ']'") : outcome_scope.
Local Open Scope outcome_scope.

(** ** Row.learn *)

(** The first [while] of [learn].  Every turn adds one to [left], and
    [left_gen] raises once [left] has run past the relator, so
    [len(rel) - left] turns, where the loop is entered, always suffice
    (see [advance_left_fuel]). *)
Fixpoint advance_left (n : nat) (r : Row) (c : Cosets) : outcome Row :=
  if decide (left r + 1 = right r)%Z then ret r else
  match n with
  | O => Paused []
  | S n' =>
      let* g := lift (left_gen r) in
      let* left_target := lift (get c (left_coset r) g) in
      match left_target with
      | None => ret r
      | Some t =>
          advance_left n'
            (mkRow (rel r) (left r + 1) (right r) t (right_target r)) c
      end
  end.

(** The second [while] of [learn]. *)
Fixpoint advance_right (n : nat) (r : Row) (c : Cosets) : outcome Row :=
  if decide (left r + 1 = right r)%Z then ret r else
  match n with
  | O => Paused []
  | S n' =>
      let* g := lift (right_gen r) in
      let* right_coset := lift (rget c g (right_target r)) in
      match right_coset with
      | None => ret r
      | Some t =>
          advance_right n'
            (mkRow (rel r) (left r) (right r - 1) (left_coset r) t) c
      end
  end.

Definition left_fuel (r : Row) : nat :=
  S (Z.to_nat (Z.of_nat (length (rel r)) - left r)).
Definition right_fuel (r : Row) : nat :=
  S (Z.to_nat (Z.of_nat (length (rel r)) + right r)).

(** [Row.learn].  The row object is mutated in place by the source; here
    the updated row is returned next to the table and the boolean. *)
Definition learn (r : Row) (c : Cosets) : outcome (Row * Cosets * bool) :=
  if decide (left r + 1 = right r)%Z then ret (r, c, false) else
  let* r1 := advance_left (left_fuel r) r c in
  let* r2 := advance_right (right_fuel r1) r1 c in
  if decide (left r2 + 1 = right r2)%Z then
    let* g := lift (left_gen r2) in
    let* c' := mutate (set c (left_coset r2) g (right_target r2)) in
    ret (r2, c', true)
  else ret (r2, c, false).

(** ** solve *)

(** [gens.index(g)] *)
Fixpoint list_index (gens : list ascii) (g : ascii) : result nat :=
  match gens with
  | [] => Err ValueError
  | x :: gens' =>
      if decide (x = g) then Ok 0
      else rbind (list_index gens' g) (λ i, Ok (S i))
  end.

(** A list comprehension whose body can raise. *)
Fixpoint comprehend {A B} (f : A → result B) (l : list A) : result (list B) :=
  match l with
  | [] => Ok []
  | x :: l' =>
      rbind (f x) (λ y, rbind (comprehend f l') (λ ys, Ok (y :: ys)))
  end.

(** One [for i in reversed(range(len(rows)))] pass: the rows are visited
    from the last to the first, a row that learned is deleted, the others
    keep their place. *)
Fixpoint scan_rows (rows : list Row) (c : Cosets)
  : outcome (list Row * Cosets * bool) :=
  match rows with
  | [] => ret ([], c, false)
  | r :: rest =>
      let* (rest', c1, learned) := scan_rows rest c in
      let* (r', c2, l) := learn r c1 in
      ret (if l then rest' else r' :: rest', c2, l || learned)
  end.

(** The [while True] loop: passes are repeated until one learns nothing.
    A pass that learns deletes a row, so [len(rows) + 1] passes suffice
    (see [learn_all_fuel]). *)
Fixpoint learn_all (n : nat) (rows : list Row) (c : Cosets)
  : outcome (list Row * Cosets) :=
  match n with
  | O => Paused []
  | S n' =>
      let* (rows', c', learned) := scan_rows rows c in
      if learned : bool then learn_all n' rows' c' else ret (rows', c')
  end.

(** The [while rows] loop. *)
Fixpoint solve_loop (fuel : nat) (rels : list (list nat))
    (rows : list Row) (c : Cosets) : outcome Cosets :=
  match rows with
  | [] => ret c
  | _ :: _ =>
      match fuel with
      | O => Paused []
      | S fuel' =>
          let* (rows1, c1) := learn_all (S (length rows)) rows c in
          let i := len c1 in
          let* (c2, added) := (match add_coset c1 with
                          | Ok (c2, true) => Done (c2, true) [c2]
                          | Ok (c2, false) => Done (c2, false) []
                          | Err e => Raise e []
                          end) in
          if added : bool
          then solve_loop fuel' rels (rows1 ++ ((λ rl, Row_init rl i) <$> rels)) c2
          else ret c2
      end
  end.

(** [for gen in subgens: cosets.set(0, gen, 0)] *)
Fixpoint fix_base (subgens : list nat) (c : Cosets) : outcome Cosets :=
  match subgens with
  | [] => ret c
  | gen :: subgens' =>
      let* c' := mutate (set c 0 gen 0) in
      fix_base subgens' c'
  end.

Definition solve (fuel : nat) (gens subgens : list ascii)
    (rels : list (list ascii)) : outcome Cosets :=
  let* rels' := lift (comprehend (comprehend (list_index gens)) rels) in
  let* subgens' := lift (comprehend (list_index gens) subgens) in
  let* c0 := Done (Cosets_init (length gens) gens) [Cosets_init (length gens) gens] in
  let* c1 := fix_base subgens' c0 in
  solve_loop fuel rels' ((λ rl, Row_init rl 0) <$> rels') c1.

(** ** The presentation builders *)

(** Python does not fix the order in which a [set] or a [frozenset] is
    iterated (it follows the hashes of the elements, and the hash of a
    [str] changes from one process to the next).  The builders iterate
    two sets, so they are given the order as an interface: any listing
    of the elements, each exactly once. *)
Class SetOrder : Type := {
  iter_links : gset (gset ascii) → list (gset ascii);
  iter_chars : gset ascii → list ascii;
  iter_links_perm : ∀ X, iter_links X ≡ₚ elements X;
  iter_chars_perm : ∀ X, iter_chars X ≡ₚ elements X
}.

(** One admissible order: the one stdpp's [elements] happens to give. *)
Definition canonical_order : SetOrder :=
  {| iter_links := elements;
     iter_chars := elements;
     iter_links_perm := λ X, reflexivity (elements X);
     iter_chars_perm := λ X, reflexivity (elements X) |}.

(** [frozenset(rel)]: the set of the characters of a word. *)
Definition frozenset (w : list ascii) : gset ascii := list_to_set w.

(** [itertools.permutations(gens, r=2)]: the ordered pairs of entries at
    two different positions. *)
Definition permutations2 {A} (l : list A) : list (A * A) :=
  imap pair l ≫= λ ix : nat * A,
    imap pair l ≫= λ jy : nat * A,
      if decide (ix.1 = jy.1) then [] else [(ix.2, jy.2)].

(** [s * n] for a string [s] and an [int] [n]: empty when [n <= 0]. *)
Definition str_mul {A} (s : list A) (n : Z) : list A :=
  mjoin (replicate (Z.to_nat n) s).

(** The relators [coxeter] hands to [solve].  [rels] is a tuple, which
    is what the source asserts; the model's type says as much. *)
Definition coxeter_rels `{SetOrder} (gens : list ascii)
    (rels : list (list ascii)) : list (list ascii) :=
  let inc_links : gset (gset ascii) := list_to_set (frozenset <$> rels) in
  let all_links : gset (gset ascii) :=
    list_to_set ((λ p : ascii * ascii, frozenset [p.1; p.2])
                   <$> permutations2 gens) in
  let missing_links := all_links ∖ inc_links in
  let rels1 :=
    rels ++ ((λ link, str_mul (iter_chars link) 2) <$> iter_links missing_links) in
  rels1 ++ ((λ gen, str_mul [gen] 2) <$> gens).

Definition coxeter `{SetOrder} (fuel : nat) (gens subgens : list ascii)
    (rels : list (list ascii)) : outcome Cosets :=
  solve fuel gens subgens (coxeter_rels gens rels).

(** [pairwise] from the top of the module. *)
Definition pairwise {A} (l : list A) : list (A * A) := zip l (tail l).

Definition schlafli `{SetOrder} (fuel : nat) (gens subgens : list ascii)
    (rels : list Z) : outcome Cosets :=
  if decide (length gens = length rels + 1) then
    let cox_rels :=
      (λ pc : (ascii * ascii) * Z, str_mul [pc.1.1; pc.1.2] pc.2)
        <$> zip (pairwise gens) rels in
    coxeter fuel gens subgens cox_rels
  else Raise AssertionError [].

(** * Notions used in the statements *)

(** ** Reading the table *)

(** The defined entry at row [i], column [j], if any: [None] both for an
    entry that holds [None] and for a position outside the array. *)
Definition entry (tab : list (list (option nat))) (i j : nat) : option nat :=
  match tab !! i with
  | Some row => match row !! j with Some v => v | None => None end
  | None => None
  end.

(** [forward[c][g]] and [reverse[t][g]] in the words of the specification. *)
Definition fwd (T : Cosets) (c g : nat) : option nat := entry (cosets T) c g.
Definition rev (T : Cosets) (t g : nat) : option nat := entry (rcosets T) t g.

(** The array is rectangular, [w] wide. *)
Definition width (w : nat) (tab : list (list (option nat))) : Prop :=
  Forall (λ row, length row = w) tab.

(** ** Well-formed tables *)

(** One row per coset in both arrays, every row [n_gens] wide, and every
    defined entry a coset of the table. *)
Record wf (T : Cosets) : Prop := {
  wf_rows : length (rcosets T) = length (cosets T);
  wf_width : width (n_gens T) (cosets T);
  wf_rwidth : width (n_gens T) (rcosets T);
  wf_fwd : ∀ c g t, fwd T c g = Some t → t < len T;
  wf_rev : ∀ t g c, rev T t g = Some c → c < len T
}.

(** Every entry of the forward array is defined. *)
Definition saturated (T : Cosets) : Prop :=
  ∀ c g, c < len T → g < n_gens T → is_Some (fwd T c g).

(** ** Walking through the table *)

(** Follow the defined entries of [tab] from [x] along the generators of
    [w].  On the forward array this applies the word to a coset; on the
    reverse array it undoes the word, last letter first. *)
Fixpoint walk (tab : list (list (option nat))) (x : nat) (w : list nat)
  : option nat :=
  match w with
  | [] => Some x
  | g :: w' =>
      match entry tab x g with
      | Some y => walk tab y w'
      | None => None
      end
  end.

(** [rel[i:j]] for [0 <= i]. *)
Definition segment {A} (l : list A) (i j : Z) : list A :=
  take (Z.to_nat (j - i)) (drop (Z.to_nat i) l).

(** ** Well-formed rows *)

(** The window lies inside the relator and is not empty, both anchors
    are cosets of the table, and the relator is over the generators. *)
Record row_wf (T : Cosets) (r : Row) : Prop := {
  rw_window : (0 ≤ left r < right r)%Z ∧ (right r ≤ Z.of_nat (length (rel r)))%Z;
  rw_left : left_coset r < len T;
  rw_right : right_target r < len T;
  rw_gens : Forall (λ g, g < n_gens T) (rel r)
}.

(** ** Runs *)

(** One mutating call of the enumeration on a table [T]: a [set] at a
    position inside the table, or an [add_coset] that found the entry
    [(i, g)] undefined and created the coset [len T]. *)
Inductive step (T T' : Cosets) : Prop :=
  | step_set (c g t : nat) :
      c < len T → t < len T → g < n_gens T →
      set T c g t = Ok T' → step T T'
  | step_add (i g : nat) :
      i < len T → g < n_gens T → fwd T i g = None →
      set (add_row T) i g (len T) = Ok T' → step T T'.

(** [l] lists the tables that follow [T], each one step from the one
    before. *)
Fixpoint chain (T : Cosets) (l : list Cosets) : Prop :=
  match l with
  | [] => True
  | T' :: l' => step T T' ∧ chain T' l'
  end.

(** The table at the end of the log [l] that started from [T]. *)
Definition final (T : Cosets) (l : list Cosets) : Cosets := default T (last l).

(** A row of the row list: well-formed, or, when the presentation has an
    empty relator ([bad]), the untouched row of an empty relator. *)
Definition row_ok (bad : Prop) (T : Cosets) (r : Row) : Prop :=
  row_wf T r ∨ (bad ∧ rel r = [] ∧ left r = 0%Z ∧ right r = 0%Z).

(** A relator in index form, as [solve] hands it to the rows. *)
Definition rel_ok (bad : Prop) (n : nat) (rl : list nat) : Prop :=
  Forall (λ g, g < n) rl ∧ (rl = [] → bad).

(** The computation [m], started on the table [T], logs a chain of steps
    from [T]; if it returns, [Q] holds of its result and the last table;
    it raises nothing but the [IndexError] of an empty relator. *)
Definition sound {A} (bad : Prop) (T : Cosets) (m : outcome A)
    (Q : A → Cosets → Prop) : Prop :=
  chain T (log_of m) ∧
  match m with
  | Done a l => Q a (final T l)
  | Raise e _ => bad ∧ e = IndexError
  | Paused _ => True
  end.

(** The part of [solve] that follows the two symbol maps: the table is
    built, the base coset fixed, and the loop run. *)
Definition enumerate (fuel : nat) (n : nat) (nms : list ascii)
    (sg : list nat) (rels' : list (list nat)) : outcome Cosets :=
  let* c1 := fix_base sg (Cosets_init n nms) in
  solve_loop fuel rels' ((λ rl, Row_init rl 0) <$> rels') c1.

(** The specification's [InvalidPresentation] condition.  The source has
    no exception class of its own: a symbol outside the alphabet surfaces
    as the [ValueError] of [list.index], and a Schlafli symbol of the wrong
    length as the [AssertionError] of the [assert] in [schlafli]. *)
Definition InvalidPresentation (e : exn) : Prop :=
  e = ValueError ∨ e = AssertionError.

(** The table of the five cosets of the subgroup generated by [a] in the
    dihedral group of order 10, as the enumeration numbers them. *)
Definition dihedral_table : Cosets :=
  mkCosets ["a"; "b"]%char 2
    [[Some 0; Some 1]; [Some 2; Some 0]; [Some 1; Some 3];
     [Some 4; Some 2]; [Some 3; Some 4]]
    [[Some 0; Some 1]; [Some 2; Some 0]; [Some 1; Some 3];
     [Some 4; Some 2]; [Some 3; Some 4]].

(** The relators [coxeter] builds for the Schlafli symbol [(5,)]. *)
Definition dihedral_rels : list (list ascii) :=
  [["a"; "b"; "a"; "b"; "a"; "b"; "a"; "b"; "a"; "b"]; ["a"; "a"]; ["b"; "b"]]%char.

(** The log of that run: the twenty-one tables the enumeration goes
    through, from the constructor's to [dihedral_table]. *)
Definition dihedral_log : list Cosets :=
  Eval vm_compute in
    log_of (solve 5 ["a"; "b"]%char ["a"]%char dihedral_rels).

(** ** Coincidence-free runs *)

(** Every defined entry of [tab] is still there, unchanged, in [tab']. *)
Definition keeps (tab tab' : list (list (option nat))) : Prop :=
  ∀ i j v, entry tab i j = Some v → entry tab' i j = Some v.

(** [R] relates every element of [l] to the next one. *)
Fixpoint adjacent {A} (R : A → A → Prop) (l : list A) : Prop :=
  match l with
  | [] => True
  | x :: l' =>
      match l' with
      | [] => True
      | y :: _ => R x y ∧ adjacent R l'
      end
  end.

(** No call overwrote a defined forward entry with another value:
    along the log the forward entries, once defined, stay as they are.
    Likewise for the reverse array. *)
Definition forward_stable (log : list Cosets) : Prop :=
  adjacent (λ T T', keeps (cosets T) (cosets T')) log.
Definition reverse_stable (log : list Cosets) : Prop :=
  adjacent (λ T T', keeps (rcosets T) (rcosets T')) log.

(** The table symmetry of the specification, and its converse. *)
Definition symmetric (T : Cosets) : Prop :=
  ∀ c g t, fwd T c g = Some t → rev T t g = Some c.
Definition bisymmetric (T : Cosets) : Prop :=
  ∀ c g t, fwd T c g = Some t ↔ rev T t g = Some c.

(** Coset [c] is reached from coset 0 along defined forward entries. *)
Definition reachable (T : Cosets) (c : nat) : Prop :=
  ∃ w, walk (cosets T) 0 w = Some c.

(** A step either leaves the number of cosets alone or creates the coset
    [len T] together with a forward edge to it from an older coset. *)
Definition grows_by_edge (T T' : Cosets) : Prop :=
  len T' = len T
  ∨ (len T' = S (len T) ∧ ∃ i g, i < len T ∧ fwd T' i g = Some (len T)).

(** ** Executable checks, for concrete tables and logs *)

Definition widest (tab : list (list (option nat))) : nat :=
  foldr (λ row, max (length row)) 0 tab.

Definition keepsb (tab tab' : list (list (option nat))) : bool :=
  forallb (λ i,
    forallb (λ j,
      match entry tab i j with
      | Some v => bool_decide (entry tab' i j = Some v)
      | None => true
      end) (seq 0 (widest tab))) (seq 0 (length tab)).

Fixpoint adjacentb {A} (f : A → A → bool) (l : list A) : bool :=
  match l with
  | [] => true
  | x :: l' =>
      match l' with
      | [] => true
      | y :: _ => f x y && adjacentb f l'
      end
  end.

Definition wf_check (T : Cosets) : Prop :=
  length (rcosets T) = length (cosets T)
  ∧ Forall (λ row, length row = n_gens T) (cosets T)
  ∧ Forall (λ row, length row = n_gens T) (rcosets T)
  ∧ Forall (Forall (λ v, default 0 v < len T)) (cosets T)
  ∧ Forall (Forall (λ v, default 0 v < len T)) (rcosets T).

(** ** The relators of [coxeter] *)

(** The pair [g], [h] was given a relator: some relator of the list is
    written with exactly these two letters. *)
Definition given (rels : list (list ascii)) (g h : ascii) : Prop :=
  ∃ w, w ∈ rels ∧ ∀ x, x ∈ w ↔ x = g ∨ x = h.

(** The commuting relators [coxeter] appends. *)
Definition commuting `{SetOrder} (gens : list ascii)
    (rels : list (list ascii)) : list (list ascii) :=
  (λ link, str_mul (iter_chars link) 2)
    <$> iter_links
          ((list_to_set ((λ p : ascii * ascii, frozenset [p.1; p.2])
                           <$> permutations2 gens) : gset (gset ascii))
           ∖ list_to_set (frozenset <$> rels)).

(** ** Consistency of the table *)

(** From [T] on, the log [l] is free of overwrites in both arrays. *)
Definition stable_from (T : Cosets) (l : list Cosets) : Prop :=
  adjacent (λ A B, keeps (cosets A) (cosets B) ∧ keeps (rcosets A) (rcosets B))
    (T :: l).

(** A row still in the row list, seen from the coset [c] it was created
    for: its window is at least two steps wide, the letters before the
    window lead forward from [c] to [left_coset], and the letters after
    the window lead backward from [c] to [right_target]. *)
Record anchored (T : Cosets) (c : nat) (r : Row) : Prop := {
  an_wf : row_wf T r;
  an_window : (left r + 2 ≤ right r)%Z;
  an_left :
    walk (cosets T) c (segment (rel r) 0 (left r)) = Some (left_coset r);
  an_right :
    walk (rcosets T) c
      (reverse (segment (rel r) (right r) (Z.of_nat (length (rel r)))))
    = Some (right_target r)
}.

Definition pending (T : Cosets) (r : Row) : Prop :=
  ∃ c, c < len T ∧ anchored T c r.

(** The relator [rl] already leads from the coset [c] back to [c], or the
    row that will see to it is in the list. *)
Definition covers (T : Cosets) (rows : list Row) (c : nat) (rl : list nat)
  : Prop :=
  walk (cosets T) c rl = Some c
  ∨ ∃ r, r ∈ rows ∧ rel r = rl ∧ anchored T c r.

Definition covered (T : Cosets) (rels : list (list nat)) (rows : list Row)
  : Prop :=
  ∀ c rl, c < len T → rl ∈ rels → covers T rows c rl.

(** Follow the letters of the word [w] through the forward array of [T],
    from the coset [c]; a letter is looked up as [solve] does it, by its
    first position in [gens]. *)
Definition trace (gens : list ascii) (T : Cosets) (c : nat) (w : list ascii)
  : option nat :=
  match comprehend (list_index gens) w with
  | Ok w' => walk (cosets T) c w'
  | Err _ => None
  end.

(** ** The relators of [schlafli] *)

(** [g] and [h] are next to each other in [gens], in either order. *)
Definition neighbours (gens : list ascii) (g h : ascii) : Prop :=
  ∃ i, (gens !! i = Some g ∧ gens !! S i = Some h)
       ∨ (gens !! i = Some h ∧ gens !! S i = Some g).

(** The tuple [cox_rels] that [schlafli] hands to [coxeter]. *)
Definition cox_rels (gens : list ascii) (symbol : list Z)
  : list (list ascii) :=
  (λ pc : (ascii * ascii) * Z, str_mul [pc.1.1; pc.1.2] pc.2)
    <$> zip (pairwise gens) symbol.

(** * Properties *)

(** ** Reading the table *)

Section Arrays.
Implicit Types (tab : list (list (option nat))) (row : list (option nat)).

Lemma index_Ok {A} (l : list A) i x : index l i = Ok x ↔ l !! i = Some x.
Proof. unfold index. destruct (l !! i); split; congruence. Qed.

Lemma index_Err {A} (l : list A) i e :
  index l i = Err e ↔ length l ≤ i ∧ e = IndexError.
Proof.
  unfold index. destruct (l !! i) eqn:E.
  - apply lookup_lt_Some in E. split; [congruence | lia].
  - apply lookup_ge_None in E. split; [intros [= <-]; auto | intros [_ ->]; auto].
Qed.

Lemma index_lt {A} (l : list A) i :
  i < length l → ∃ x, index l i = Ok x ∧ l !! i = Some x.
Proof.
  intros Hi. destruct (lookup_lt_is_Some_2 l i Hi) as [x Hx].
  exists x. split; [by apply index_Ok | done].
Qed.

Lemma py_index_nonneg {A} (l : list A) (i : Z) :
  (0 ≤ i)%Z → py_index l i = index l (Z.to_nat i).
Proof. intros. unfold py_index. by rewrite decide_True. Qed.

Lemma py_index_Ok_range {A} (l : list A) (i : Z) x :
  py_index l i = Ok x → (- Z.of_nat (length l) ≤ i < Z.of_nat (length l))%Z.
Proof.
  unfold py_index. repeat case_decide; try done.
  - intros E%index_Ok%lookup_lt_Some. lia.
  - intros E%index_Ok%lookup_lt_Some. lia.
Qed.

Lemma width_lookup w tab i row :
  width w tab → tab !! i = Some row → length row = w.
Proof. intros Hw Hi. exact (Forall_lookup_1 _ _ _ _ Hw Hi). Qed.

Lemma entry_Some_lt tab i j t :
  entry tab i j = Some t → i < length tab.
Proof.
  unfold entry. destruct (tab !! i) eqn:E; [|done].
  intros _. by apply lookup_lt_Some in E.
Qed.

Lemma entry_Some_width w tab i j t :
  width w tab → entry tab i j = Some t → j < w.
Proof.
  unfold entry. intros Hw. destruct (tab !! i) as [row|] eqn:E; [|done].
  destruct (row !! j) eqn:E'; [|done]. intros _.
  apply lookup_lt_Some in E'. by rewrite <- (width_lookup _ _ _ _ Hw E).
Qed.

Lemma store_Ok tab i j v tab' :
  store tab i j v = Ok tab' ↔
  ∃ row, tab !! i = Some row ∧ j < length row
         ∧ tab' = <[i := <[j := Some v]> row]> tab.
Proof.
  unfold store, index, rbind. destruct (tab !! i) as [row|]; [|naive_solver].
  case_decide; naive_solver.
Qed.

Lemma store_in_range w tab i j v :
  width w tab → i < length tab → j < w → ∃ tab', store tab i j v = Ok tab'.
Proof.
  intros Hw Hi Hj. destruct (lookup_lt_is_Some_2 tab i Hi) as [row Hrow].
  eexists. apply store_Ok. exists row. split_and!; [done| |done].
  by rewrite (width_lookup _ _ _ _ Hw Hrow).
Qed.

Lemma store_length tab i j v tab' :
  store tab i j v = Ok tab' → length tab' = length tab.
Proof. intros (row & _ & _ & ->)%store_Ok. by rewrite length_insert. Qed.

Lemma store_width w tab i j v tab' :
  width w tab → store tab i j v = Ok tab' → width w tab'.
Proof.
  intros Hw (row & Hrow & _ & ->)%store_Ok. apply Forall_insert; [done|].
  rewrite length_insert. by eapply width_lookup.
Qed.

(** After [tab[i][j] = v] the entry written reads [v] and every other
    entry reads as before. *)
Lemma store_entry tab i j v tab' a b :
  store tab i j v = Ok tab' →
  entry tab' a b = if decide (a = i ∧ b = j) then Some v else entry tab a b.
Proof.
  intros (row & Hrow & Hj & ->)%store_Ok. unfold entry.
  destruct (decide (a = i)) as [->|Hne].
  - rewrite list_lookup_insert_eq by by eapply lookup_lt_Some.
    rewrite Hrow. destruct (decide (b = j)) as [->|Hne].
    + rewrite list_lookup_insert_eq by done. by rewrite decide_True.
    + rewrite list_lookup_insert_ne by done. by rewrite decide_False by naive_solver.
  - rewrite list_lookup_insert_ne by done. by rewrite decide_False by naive_solver.
Qed.

Lemma entry_snoc_blank tab w a b :
  entry (tab ++ [replicate w None]) a b = entry tab a b.
Proof.
  unfold entry. destruct (decide (a < length tab)) as [Hlt|Hge].
  - by rewrite lookup_app_l.
  - rewrite lookup_app_r by lia. rewrite (lookup_ge_None_2 tab a) by lia.
    destruct ([replicate w None] !! (a - length tab)) as [row|] eqn:E; [|done].
    apply list_lookup_singleton_Some in E as [_ <-].
    destruct (replicate w None !! b) eqn:E'; [|done].
    by apply lookup_replicate_1 in E' as [-> _].
Qed.
End Arrays.

(** ** The table class *)

Section Table.
Implicit Types (T : Cosets) (c g t : nat).

Lemma get_Ok T c g v : get T c g = Ok v → fwd T c g = v.
Proof.
  unfold get, fwd, entry, rbind, index.
  destruct (cosets T !! c) as [row|]; [|done].
  destruct (row !! g); congruence.
Qed.

Lemma rget_Ok T g t v : rget T g t = Ok v → rev T t g = v.
Proof.
  unfold rget, rev, entry, rbind, index.
  destruct (rcosets T !! t) as [row|]; [|done].
  destruct (row !! g); congruence.
Qed.

(** Inside the table [get] and [rget] do not raise. *)
Lemma get_in_range T c g :
  wf T → c < len T → g < n_gens T → get T c g = Ok (fwd T c g).
Proof.
  intros HT Hc Hg. unfold get, fwd, entry, rbind.
  destruct (index_lt (cosets T) c Hc) as (row & Hidx & Hrow).
  rewrite Hidx, Hrow.
  assert (length row = n_gens T) as Hw
    by (eapply width_lookup; [exact (wf_width _ HT)|done]).
  destruct (index_lt row g ltac:(lia)) as (v & Hidx' & Hv).
  by rewrite Hidx', Hv.
Qed.

Lemma rget_in_range T g t :
  wf T → t < len T → g < n_gens T → rget T g t = Ok (rev T t g).
Proof.
  intros HT Ht Hg. unfold rget, rev, entry, rbind.
  assert (t < length (rcosets T)) as Ht' by (rewrite (wf_rows _ HT); exact Ht).
  destruct (index_lt (rcosets T) t Ht') as (row & Hidx & Hrow).
  rewrite Hidx, Hrow.
  assert (length row = n_gens T) as Hw
    by (eapply width_lookup; [exact (wf_rwidth _ HT)|done]).
  destruct (index_lt row g ltac:(lia)) as (v & Hidx' & Hv).
  by rewrite Hidx', Hv.
Qed.

Lemma set_Ok T c g t T' :
  set T c g t = Ok T' ↔
  ∃ f r, store (cosets T) c g t = Ok f ∧ store (rcosets T) t g c = Ok r
         ∧ T' = mkCosets (names T) (n_gens T) f r.
Proof.
  unfold set, rbind.
  destruct (store (cosets T) c g t) as [f|]; [|naive_solver].
  destruct (store (rcosets T) t g c) as [r|]; naive_solver.
Qed.

(** What [set] leaves behind: the entry written in each array, and
    nothing else changed. *)
Lemma set_fwd T c g t T' a b :
  set T c g t = Ok T' →
  fwd T' a b = if decide (a = c ∧ b = g) then Some t else fwd T a b.
Proof.
  intros (f & r & Hf & Hr & ->)%set_Ok. unfold fwd; simpl.
  by apply store_entry.
Qed.

Lemma set_rev T c g t T' a b :
  set T c g t = Ok T' →
  rev T' a b = if decide (a = t ∧ b = g) then Some c else rev T a b.
Proof.
  intros (f & r & Hf & Hr & ->)%set_Ok. unfold rev; simpl.
  by apply store_entry.
Qed.

Lemma set_len T c g t T' : set T c g t = Ok T' → len T' = len T.
Proof.
  intros (f & r & Hf & Hr & ->)%set_Ok. unfold len; simpl.
  by eapply store_length.
Qed.

Lemma set_n_gens T c g t T' : set T c g t = Ok T' → n_gens T' = n_gens T.
Proof. by intros (f & r & Hf & Hr & ->)%set_Ok. Qed.

Lemma set_names T c g t T' : set T c g t = Ok T' → names T' = names T.
Proof. by intros (f & r & Hf & Hr & ->)%set_Ok. Qed.

(** Inside the table [set] does not raise. *)
Lemma set_in_range T c g t :
  wf T → c < len T → t < len T → g < n_gens T → ∃ T', set T c g t = Ok T'.
Proof.
  intros HT Hc Ht Hg.
  destruct (store_in_range _ (cosets T) c g t (wf_width _ HT) Hc Hg) as [f Hf].
  destruct (store_in_range _ (rcosets T) t g c (wf_rwidth _ HT)) as [r Hr];
    [rewrite (wf_rows _ HT); exact Ht | exact Hg |].
  eexists. apply set_Ok. eauto.
Qed.

Lemma set_wf T c g t T' :
  wf T → c < len T → t < len T → set T c g t = Ok T' → wf T'.
Proof.
  intros HT Hc Ht Hset.
  pose proof (set_len _ _ _ _ _ Hset) as Hlen.
  pose proof (λ a b, set_fwd _ _ _ _ _ a b Hset) as Hfwd.
  pose proof (λ a b, set_rev _ _ _ _ _ a b Hset) as Hrev.
  apply set_Ok in Hset as (f & r & Hf & Hr & ->).
  split; simpl.
  - rewrite (store_length _ _ _ _ _ Hf), (store_length _ _ _ _ _ Hr).
    exact (wf_rows _ HT).
  - eapply store_width; [exact (wf_width _ HT) | done].
  - eapply store_width; [exact (wf_rwidth _ HT) | done].
  - intros a b x. rewrite Hfwd, Hlen. case_decide.
    + by intros [= <-].
    + apply (wf_fwd _ HT).
  - intros a b x. rewrite Hrev, Hlen. case_decide.
    + by intros [= <-].
    + apply (wf_rev _ HT).
Qed.

Lemma add_row_len T : len (add_row T) = S (len T).
Proof. unfold len, add_row; simpl. rewrite length_app; simpl. lia. Qed.

Lemma add_row_fwd T a b : fwd (add_row T) a b = fwd T a b.
Proof. apply entry_snoc_blank. Qed.

Lemma add_row_rev T a b : rev (add_row T) a b = rev T a b.
Proof. apply entry_snoc_blank. Qed.

Lemma add_row_wf T : wf T → wf (add_row T).
Proof.
  intros HT. split.
  - simpl. rewrite !length_app. by rewrite (wf_rows _ HT).
  - simpl. apply Forall_app. split; [exact (wf_width _ HT)|].
    apply Forall_singleton, length_replicate.
  - simpl. apply Forall_app. split; [exact (wf_rwidth _ HT)|].
    apply Forall_singleton, length_replicate.
  - intros a b x. rewrite add_row_fwd, add_row_len.
    intros H%(wf_fwd _ HT). lia.
  - intros a b x. rewrite add_row_rev, add_row_len.
    intros H%(wf_rev _ HT). lia.
Qed.

Lemma Cosets_init_wf n nms : wf (Cosets_init n nms).
Proof.
  apply add_row_wf. split; simpl; try done; try apply Forall_nil_2.
Qed.

Lemma Cosets_init_fwd n nms a b : fwd (Cosets_init n nms) a b = None.
Proof.
  unfold Cosets_init. rewrite add_row_fwd. by destruct a.
Qed.

Lemma Cosets_init_rev n nms a b : rev (Cosets_init n nms) a b = None.
Proof.
  unfold Cosets_init. rewrite add_row_rev. by destruct a.
Qed.

(** The row-major search of [add_coset]. *)
Lemma first_none_Some row k g :
  first_none row k = Some g →
  k ≤ g ∧ row !! (g - k) = Some None
  ∧ ∀ j, j < g - k → ∃ v, row !! j = Some (Some v).
Proof.
  revert k. induction row as [|[v|] row IH]; intros k; simpl; [done| |].
  - intros (Hk & Hg & Hbefore)%IH. split; [lia|].
    replace (g - k) with (S (g - S k)) by lia. split; [done|].
    intros [|j] Hj; [eauto|]. apply Hbefore. lia.
  - intros [= <-]. rewrite Nat.sub_diag. split; [lia|]. split; [done|].
    intros j Hj. lia.
Qed.

Lemma first_none_None row k :
  first_none row k = None → ∀ j, j < length row → ∃ v, row !! j = Some (Some v).
Proof.
  revert k. induction row as [|[v|] row IH]; intros k; simpl; [lia| |done].
  intros H [|j] Hj; [eauto|]. eapply IH; [done | lia].
Qed.

Lemma first_undefined_Some tab k i g :
  first_undefined tab k = Some (i, g) →
  k ≤ i ∧ entry tab (i - k) g = None
  ∧ ∃ row, tab !! (i - k) = Some row ∧ g < length row.
Proof.
  revert k. induction tab as [|row tab IH]; intros k; simpl; [done|].
  destruct (first_none row 0) as [g'|] eqn:E.
  - intros [= <- <-]. apply first_none_Some in E as (_ & Hg & _).
    rewrite Nat.sub_0_r in Hg. rewrite Nat.sub_diag.
    split; [lia|]. split.
    + unfold entry; simpl. by rewrite Hg.
    + exists row. split; [done|]. by eapply lookup_lt_Some.
  - intros (Hk & He & row' & Hrow' & Hg)%IH.
    replace (i - k) with (S (i - S k)) by lia. split; [lia|]. eauto.
Qed.

Lemma first_undefined_None tab k :
  first_undefined tab k = None →
  ∀ i row j, tab !! i = Some row → j < length row → is_Some (entry tab i j).
Proof.
  revert k. induction tab as [|row tab IH]; intros k; simpl; [by intros _ i|].
  destruct (first_none row 0) as [g'|] eqn:E; [done|].
  intros H [|i] row' j; simpl.
  - intros [= <-] Hj. destruct (first_none_None _ _ E j Hj) as [v Hv].
    unfold entry; simpl. rewrite Hv. eauto.
  - intros Hrow' Hj. apply (IH _ H i row' j Hrow' Hj).
Qed.

(** [add_coset] either finds the table saturated and leaves it alone,
    or adds one coset [k = len T] and writes the edge from the coset
    whose entry was undefined to [k]. *)
Lemma add_coset_spec T :
  wf T →
  (add_coset T = Ok (T, false) ∧ saturated T) ∨
  (∃ i g T', add_coset T = Ok (T', true) ∧ i < len T ∧ g < n_gens T
             ∧ fwd T i g = None
             ∧ set (add_row T) i g (len T) = Ok T').
Proof.
  intros HT. unfold add_coset.
  destruct (first_undefined (cosets T) 0) as [[i g]|] eqn:E.
  - right. apply first_undefined_Some in E as (_ & He & row & Hrow & Hg).
    rewrite Nat.sub_0_r in *.
    assert (i < len T) as Hi by by eapply lookup_lt_Some.
    assert (g < n_gens T) as Hg'
      by by rewrite <- (width_lookup _ _ _ _ (wf_width _ HT) Hrow).
    destruct (set_in_range (add_row T) i g (len T)) as [T' HT'];
      [by apply add_row_wf | rewrite add_row_len; lia
      | rewrite add_row_len; lia | done |].
    exists i, g, T'. unfold len in *. rewrite HT'. simpl. done.
  - left. split; [done|]. intros c g Hc Hg.
    destruct (lookup_lt_is_Some_2 (cosets T) c Hc) as [row Hrow].
    eapply first_undefined_None; [done..|].
    by rewrite (width_lookup _ _ _ _ (wf_width _ HT) Hrow).
Qed.
End Table.

(** ** Walks and segments *)

Section Walk.
Implicit Types (tab : list (list (option nat))) (w : list nat).

Lemma walk_app tab x w1 w2 :
  walk tab x (w1 ++ w2) =
  match walk tab x w1 with Some y => walk tab y w2 | None => None end.
Proof.
  revert x. induction w1 as [|g w1 IH]; intros x; simpl; [done|].
  destruct (entry tab x g); [apply IH | done].
Qed.

Lemma walk_snoc tab x w g y z :
  walk tab x w = Some y → entry tab y g = Some z →
  walk tab x (w ++ [g]) = Some z.
Proof. intros Hw Hg. rewrite walk_app, Hw. simpl. by rewrite Hg. Qed.

Lemma segment_empty {A} (l : list A) i : segment l i i = [].
Proof. unfold segment. by rewrite Z.sub_diag. Qed.

Lemma segment_cons {A} (l : list A) (i j : Z) x :
  (0 ≤ i < j)%Z → l !! Z.to_nat i = Some x →
  segment l i j = x :: segment l (i + 1) j.
Proof.
  intros Hij Hx. unfold segment.
  replace (Z.to_nat (j - i)) with (S (Z.to_nat (j - (i + 1)))) by lia.
  replace (Z.to_nat (i + 1)) with (S (Z.to_nat i)) by lia.
  by rewrite (drop_S _ _ _ Hx).
Qed.

Lemma segment_snoc {A} (l : list A) (i j : Z) x :
  (0 ≤ i < j)%Z → l !! Z.to_nat (j - 1) = Some x →
  segment l i j = segment l i (j - 1) ++ [x].
Proof.
  intros Hij Hx. unfold segment.
  replace (Z.to_nat (j - i)) with (S (Z.to_nat (j - 1 - i))) by lia.
  apply take_S_r. rewrite lookup_drop.
  by replace (Z.to_nat i + Z.to_nat (j - 1 - i)) with (Z.to_nat (j - 1)) by lia.
Qed.

End Walk.

(** ** Rows *)

Lemma Row_init_wf T rl i :
  rl ≠ [] → Forall (λ g, g < n_gens T) rl → i < len T → row_wf T (Row_init rl i).
Proof.
  intros Hne Hg Hi. split; simpl; try done.
  destruct rl; [done|]. simpl. lia.
Qed.

Lemma row_wf_grow T T' r :
  row_wf T r → len T ≤ len T' → n_gens T' = n_gens T → row_wf T' r.
Proof.
  intros [Hw Hl Hr Hg] Hlen Hn. split; [done | lia | lia |].
  by rewrite Hn.
Qed.

Lemma row_wf_left_gen T r :
  row_wf T r →
  ∃ g, left_gen r = Ok g ∧ rel r !! Z.to_nat (left r) = Some g ∧ g < n_gens T.
Proof.
  intros [Hw _ _ Hg]. unfold left_gen. rewrite py_index_nonneg by lia.
  destruct (index_lt (rel r) (Z.to_nat (left r)) ltac:(lia)) as (g & Hi & Hl).
  exists g. split_and!; [done..|]. exact (Forall_lookup_1 _ _ _ _ Hg Hl).
Qed.

Lemma row_wf_right_gen T r :
  row_wf T r →
  ∃ g, right_gen r = Ok g ∧ rel r !! Z.to_nat (right r - 1) = Some g
       ∧ g < n_gens T.
Proof.
  intros [Hw _ _ Hg]. unfold right_gen. rewrite py_index_nonneg by lia.
  destruct (index_lt (rel r) (Z.to_nat (right r - 1)) ltac:(lia)) as (g & Hi & Hl).
  exists g. split_and!; [done..|]. exact (Forall_lookup_1 _ _ _ _ Hg Hl).
Qed.

(** ** The two scans of [learn] *)

Lemma advance_left_spec T n r :
  wf T → row_wf T r → left_fuel r ≤ n →
  ∃ r', advance_left n r T = Done r' []
    ∧ row_wf T r' ∧ rel r' = rel r ∧ right r' = right r
    ∧ right_target r' = right_target r ∧ (left r ≤ left r')%Z
    ∧ walk (cosets T) (left_coset r) (segment (rel r) (left r) (left r'))
      = Some (left_coset r')
    ∧ ((left r' + 1 = right r')%Z
       ∨ ∃ g, rel r !! Z.to_nat (left r') = Some g
              ∧ fwd T (left_coset r') g = None).
Proof.
  intros HT. revert r. induction n as [|n IH]; intros r Hr Hn.
  { unfold left_fuel in Hn. lia. }
  simpl. case_decide as Hstop.
  { exists r. rewrite segment_empty. split_and!; try done. by left. }
  destruct (row_wf_left_gen _ _ Hr) as (g & -> & Hg & Hgn). simpl.
  rewrite (get_in_range _ _ _ HT (rw_left _ _ Hr) Hgn). simpl.
  destruct (fwd T (left_coset r) g) as [t|] eqn:Ht.
  - pose proof (rw_window _ _ Hr) as Hw.
    set (r1 := mkRow (rel r) (left r + 1) (right r) t (right_target r)).
    assert (row_wf T r1) as Hr1.
    { split; simpl; [lia | by eapply wf_fwd | apply Hr | apply Hr]. }
    destruct (IH r1 Hr1) as (r' & Hrun & Hr' & Hrel & Hright & Htar & Hle & Hwalk & Hend).
    { unfold left_fuel in *; simpl. lia. }
    exists r'. simpl in *. rewrite Hrun. split_and!; try done; [lia|].
    rewrite (segment_cons _ _ _ g) by (done || lia).
    simpl. unfold fwd in Ht. by rewrite Ht.
  - exists r. rewrite segment_empty. split_and!; try done. right. eauto.
Qed.

Lemma advance_right_spec T n r :
  wf T → row_wf T r → right_fuel r ≤ n →
  ∃ r', advance_right n r T = Done r' []
    ∧ row_wf T r' ∧ rel r' = rel r ∧ left r' = left r
    ∧ left_coset r' = left_coset r ∧ (right r' ≤ right r)%Z
    ∧ walk (rcosets T) (right_target r)
        (reverse (segment (rel r) (right r') (right r)))
      = Some (right_target r')
    ∧ ((left r' + 1 = right r')%Z
       ∨ ∃ g, rel r !! Z.to_nat (right r' - 1) = Some g
              ∧ rev T (right_target r') g = None).
Proof.
  intros HT. revert r. induction n as [|n IH]; intros r Hr Hn.
  { unfold right_fuel in Hn. lia. }
  simpl. case_decide as Hstop.
  { exists r. rewrite segment_empty. split_and!; try done. by left. }
  destruct (row_wf_right_gen _ _ Hr) as (g & -> & Hg & Hgn). simpl.
  rewrite (rget_in_range _ _ _ HT (rw_right _ _ Hr) Hgn). simpl.
  destruct (rev T (right_target r) g) as [t|] eqn:Ht.
  - pose proof (rw_window _ _ Hr) as Hw.
    set (r1 := mkRow (rel r) (left r) (right r - 1) (left_coset r) t).
    assert (row_wf T r1) as Hr1.
    { split; simpl; [lia | apply Hr | by eapply wf_rev | apply Hr]. }
    destruct (IH r1 Hr1) as (r' & Hrun & Hr' & Hrel & Hleft & Hlc & Hle & Hwalk & Hend).
    { unfold right_fuel in *; simpl. lia. }
    exists r'. simpl in *. rewrite Hrun. split_and!; try done; [lia|].
    pose proof (rw_window _ _ Hr') as Hw'. rewrite Hrel in Hw'.
    rewrite (segment_snoc _ _ _ g) by (done || lia).
    rewrite reverse_app. simpl. unfold rev in Ht. by rewrite Ht.
  - exists r. rewrite segment_empty. split_and!; try done. right. eauto.
Qed.

(** ** Row.learn *)

(** The full account of one call of [learn]; [learn_spec] below is its
    statement without the bookkeeping. *)
Lemma learn_run (T : Cosets) (r : Row) (HT : wf T) (Hr : row_wf T r) :
  ((left r + 1 = right r)%Z → learn r T = Done (r, T, false) []) ∧
  ((left r + 1 ≠ right r)%Z →
   ∃ r' : Row,
     row_wf T r' ∧ rel r' = rel r ∧ (left r ≤ left r' < right r')%Z ∧ (right r' ≤ right r)%Z
     ∧ walk (cosets T) (left_coset r) (segment (rel r) (left r) (left r'))
       = Some (left_coset r')
     ∧ walk (rcosets T) (right_target r)
         (reverse (segment (rel r) (right r') (right r)))
       = Some (right_target r')
     ∧ (right r' = right r
        ∨ ∃ g, rel r !! Z.to_nat (left r') = Some g
               ∧ fwd T (left_coset r') g = None)
     ∧ ((left r' + 1 = right r')%Z →
        ∃ g T', rel r !! Z.to_nat (left r') = Some g
          ∧ set T (left_coset r') g (right_target r') = Ok T'
          ∧ learn r T = Done (r', T', true) [T'])
     ∧ ((left r' + 1 ≠ right r')%Z →
        (∃ g, rel r !! Z.to_nat (left r') = Some g
              ∧ fwd T (left_coset r') g = None)
        ∧ (∃ g, rel r !! Z.to_nat (right r' - 1) = Some g
                ∧ rev T (right_target r') g = None)
        ∧ learn r T = Done (r', T, false) [])).
Proof.
  unfold learn. split; intros Hstop.
  { by rewrite decide_True. }
  rewrite decide_False by done.
  destruct (advance_left_spec T (left_fuel r) r HT Hr (le_n _))
    as (r1 & -> & Hr1 & Hrel1 & Hright1 & Htar1 & Hle1 & Hwalk1 & Hend1).
  cbn [bind].
  destruct (advance_right_spec T (right_fuel r1) r1 HT Hr1 (le_n _))
    as (r2 & -> & Hr2 & Hrel2 & Hleft2 & Hlc2 & Hle2 & Hwalk2 & Hend2).
  cbn [bind app]. exists r2.
  pose proof (rw_window _ _ Hr2) as Hw2.
  rewrite Hrel1 in Hrel2, Hwalk2, Hend2. rewrite Hright1 in Hwalk2, Hle2, Hend1.
  rewrite Htar1 in Hwalk2. rewrite <- Hleft2 in Hwalk1, Hend1, Hle1.
  rewrite <- Hlc2 in Hwalk1, Hend1.
  split_and!; [done | done | lia | lia | lia | done | done | | |].
  - destruct Hend1 as [Hclosed|Hstuck]; [|by right]. left.
    (* the left scan closed the window: the right scan has nothing to do *)
    lia.
  - intros Hclosed. rewrite decide_True by lia.
    destruct (row_wf_left_gen _ _ Hr2) as (g & Hg & Hlook & Hgn).
    rewrite Hg. cbn [lift bind].
    destruct (set_in_range T (left_coset r2) g (right_target r2) HT
                (rw_left _ _ Hr2) (rw_right _ _ Hr2) Hgn) as [T' HT'].
    exists g, T'. rewrite HT'. rewrite Hrel2 in Hlook. done.
  - intros Hopen. rewrite decide_False by lia. split_and!; [| |done].
    + destruct Hend1 as [Hclosed|Hstuck]; [lia|done].
    + destruct Hend2 as [Hclosed|Hstuck]; [lia|done].
Qed.

(** C4.  What [learn] does to a well-formed row [r] on a well-formed
    table [T].  If the window is one step wide it answers [False] and
    touches nothing.  Otherwise the row it leaves, [r'], has its left end
    moved right along defined forward entries, as far as they go short of
    closing the window, and then its right end moved left along defined
    reverse entries in the same way (the right end only moves when the
    left end is stuck).  It answers [True] exactly when the window of [r']
    is one step wide, and then the one write it performs is
    [set(left_coset, rel[left], right_target)]; in every other case it
    answers [False], both ends are stuck on undefined entries, and the
    table is returned as it was, with nothing written. *)
Theorem learn_spec (T : Cosets) (r : Row) (HT : wf T) (Hr : row_wf T r) :
  ((left r + 1 = right r)%Z → learn r T = Done (r, T, false) []) ∧
  ((left r + 1 ≠ right r)%Z →
   ∃ r' : Row,
     rel r' = rel r ∧ (left r ≤ left r' < right r')%Z ∧ (right r' ≤ right r)%Z
     ∧ walk (cosets T) (left_coset r) (segment (rel r) (left r) (left r'))
       = Some (left_coset r')
     ∧ walk (rcosets T) (right_target r)
         (reverse (segment (rel r) (right r') (right r)))
       = Some (right_target r')
     ∧ (right r' = right r
        ∨ ∃ g, rel r !! Z.to_nat (left r') = Some g
               ∧ fwd T (left_coset r') g = None)
     ∧ ((left r' + 1 = right r')%Z →
        ∃ g T', rel r !! Z.to_nat (left r') = Some g
          ∧ set T (left_coset r') g (right_target r') = Ok T'
          ∧ learn r T = Done (r', T', true) [T'])
     ∧ ((left r' + 1 ≠ right r')%Z →
        (∃ g, rel r !! Z.to_nat (left r') = Some g
              ∧ fwd T (left_coset r') g = None)
        ∧ (∃ g, rel r !! Z.to_nat (right r' - 1) = Some g
                ∧ rev T (right_target r') g = None)
        ∧ learn r T = Done (r', T, false) [])).
Proof.
  destruct (learn_run T r HT Hr) as [Hone Hmore]. split; [done|].
  intros Hstop. destruct (Hmore Hstop) as (r' & _ & H). by exists r'.
Qed.

(** ** Steps and chains *)

Section Chains.
Implicit Types (T : Cosets) (l : list Cosets).

Lemma step_len T T' : step T T' → len T ≤ len T'.
Proof.
  intros [c g t _ _ _ H|i g _ _ _ H]; apply set_len in H.
  - lia.
  - rewrite add_row_len in H. lia.
Qed.

Lemma step_n_gens T T' : step T T' → n_gens T' = n_gens T.
Proof. by intros [c g t _ _ _ H|i g _ _ _ H]; apply set_n_gens in H. Qed.

Lemma step_names T T' : step T T' → names T' = names T.
Proof. by intros [c g t _ _ _ H|i g _ _ _ H]; apply set_names in H. Qed.

Lemma step_wf T T' : wf T → step T T' → wf T'.
Proof.
  intros HT [c g t Hc Ht _ H|i g Hi _ _ H].
  - exact (set_wf _ _ _ _ _ HT Hc Ht H).
  - apply (set_wf (add_row T) i g (len T) T');
      [by apply add_row_wf | rewrite add_row_len; lia
      | rewrite add_row_len; lia | done].
Qed.

Lemma final_nil T : final T [] = T.
Proof. done. Qed.

Lemma final_cons T T' l : final T (T' :: l) = final T' l.
Proof. unfold final. rewrite last_cons. by destruct (last l). Qed.

Lemma final_app T l1 l2 : final T (l1 ++ l2) = final (final T l1) l2.
Proof.
  revert T. induction l1 as [|T' l1 IH]; intros T; [done|].
  simpl. by rewrite !final_cons.
Qed.

Lemma final_singleton T T' : final T [T'] = T'.
Proof. done. Qed.

Lemma chain_app T l1 l2 :
  chain T (l1 ++ l2) ↔ chain T l1 ∧ chain (final T l1) l2.
Proof.
  revert T. induction l1 as [|T' l1 IH]; intros T; simpl.
  - rewrite final_nil. naive_solver.
  - rewrite final_cons, IH. naive_solver.
Qed.

Lemma chain_len T l : chain T l → len T ≤ len (final T l).
Proof.
  revert T. induction l as [|T' l IH]; intros T; simpl; [done|].
  intros [H1%step_len H2%IH]. rewrite final_cons. lia.
Qed.

Lemma chain_n_gens T l : chain T l → n_gens (final T l) = n_gens T.
Proof.
  revert T. induction l as [|T' l IH]; intros T; simpl; [done|].
  intros [H1%step_n_gens H2%IH]. rewrite final_cons. congruence.
Qed.

Lemma chain_names T l : chain T l → names (final T l) = names T.
Proof.
  revert T. induction l as [|T' l IH]; intros T; simpl; [done|].
  intros [H1%step_names H2%IH]. rewrite final_cons. congruence.
Qed.

Lemma chain_wf T l : wf T → chain T l → Forall wf l ∧ wf (final T l).
Proof.
  revert T. induction l as [|T' l IH]; intros T HT; simpl; [done|].
  intros [H1 H2]. pose proof (step_wf _ _ HT H1) as HT'.
  destruct (IH _ HT' H2). rewrite final_cons. split; [by constructor | done].
Qed.

Lemma row_ok_grow bad T T' r :
  row_ok bad T r → len T ≤ len T' → n_gens T' = n_gens T → row_ok bad T' r.
Proof. intros [H|H] ??; [left; by eapply row_wf_grow | by right]. Qed.

Lemma rows_ok_chain bad T l rows :
  chain T l → Forall (row_ok bad T) rows → Forall (row_ok bad (final T l)) rows.
Proof.
  intros Hc Hrows. eapply Forall_impl; [exact Hrows|]. intros r Hr.
  eapply row_ok_grow; [done | by apply chain_len | by apply chain_n_gens].
Qed.
End Chains.

(** ** Reasoning about outcomes *)

Section Sound.
Context (bad : Prop).
Implicit Types (T : Cosets).

Lemma sound_ret {A} T (a : A) (Q : A → Cosets → Prop) :
  Q a T → sound bad T (ret a) Q.
Proof. intros. split; simpl; done. Qed.

Lemma sound_bind {A B} T (m : outcome A) (f : A → outcome B) Q R :
  sound bad T m Q →
  (∀ a l, m = Done a l → chain T l → Q a (final T l) →
          sound bad (final T l) (f a) R) →
  sound bad T (bind m f) R.
Proof.
  intros [Hc Hm] Hf. destruct m as [a l|e l|l]; simpl in *; [|done..].
  destruct (Hf a l eq_refl Hc Hm) as [Hc' Hm'].
  destruct (f a) as [b l'|e l'|l']; simpl in *;
    (split; [by apply chain_app|]); [|done..].
  by rewrite final_app.
Qed.

Lemma sound_weaken {A} T (m : outcome A) (Q R : A → Cosets → Prop) :
  sound bad T m Q → (∀ a Tf, Q a Tf → R a Tf) → sound bad T m R.
Proof. intros [Hc Hm] HQR. split; [done|]. destruct m; auto. Qed.

Lemma sound_mutate T c g t :
  wf T → c < len T → t < len T → g < n_gens T →
  sound bad T (mutate (set T c g t)) (λ T' Tf, T' = Tf).
Proof.
  intros HT Hc Ht Hg. destruct (set_in_range T c g t HT Hc Ht Hg) as [T' HT'].
  rewrite HT'. split; simpl; [|done]. split; [|done].
  exact (step_set _ _ _ _ _ Hc Ht Hg HT').
Qed.

(** [learn] on a row of the row list. *)
Lemma learn_sound T r :
  wf T → row_ok bad T r →
  sound bad T (learn r T) (λ a Tf, a.1.2 = Tf ∧ row_ok bad Tf a.1.1).
Proof.
  intros HT [Hr|(Hbad & Hrel & Hl & Hr)].
  - destruct (learn_run T r HT Hr) as [Hone Hmore].
    destruct (decide (left r + 1 = right r)%Z) as [Hstop|Hstop].
    { rewrite (Hone Hstop). apply sound_ret. split; [done | by left]. }
    destruct (Hmore Hstop)
      as (r' & Hr' & Hrel & Hwin & Hwin' & _ & _ & _ & Hyes & Hno).
    destruct (decide (left r' + 1 = right r')%Z) as [Hclosed|Hopen].
    + destruct (Hyes Hclosed) as (g & T' & Hg & Hset & ->).
      assert (g < n_gens T) as Hgn.
      { rewrite <- Hrel in Hg. exact (Forall_lookup_1 _ _ _ _ (rw_gens _ _ Hr') Hg). }
      split; simpl.
      * split; [|done].
        exact (step_set _ _ _ _ _ (rw_left _ _ Hr') (rw_right _ _ Hr') Hgn Hset).
      * split; [done|]. left. apply (row_wf_grow T T' r' Hr').
        -- by rewrite (set_len _ _ _ _ _ Hset).
        -- exact (set_n_gens _ _ _ _ _ Hset).
    + destruct (Hno Hopen) as (_ & _ & ->). apply sound_ret.
      split; [done|]. by left.
  - destruct r as [rl l rt lc rtg]; simpl in *; subst. split; simpl; done.
Qed.
End Sound.

(** ** The loops of [solve] *)

Section Loops.
Context (bad : Prop).
Implicit Types (T : Cosets) (rows : list Row).

Lemma Row_init_ok T rl i :
  rel_ok bad (n_gens T) rl → i < len T → row_ok bad T (Row_init rl i).
Proof.
  intros [Hg Hempty] Hi. destruct (decide (rl = [])) as [->|Hne].
  - right. by split_and!; [apply Hempty|..].
  - left. by apply Row_init_wf.
Qed.

Lemma scan_rows_sound T rows :
  wf T → Forall (row_ok bad T) rows →
  sound bad T (scan_rows rows T)
    (λ a Tf, a.1.2 = Tf ∧ Forall (row_ok bad Tf) a.1.1).
Proof.
  intros HT. induction rows as [|r rest IH]; intros Hrows.
  { apply sound_ret. by split. }
  apply Forall_cons in Hrows as [Hr Hrest]. cbn [scan_rows].
  eapply sound_bind; [exact (IH Hrest)|].
  intros [[rest' c1] learned] l _ Hl [Hc1 Hrest']. simpl in Hc1, Hrest'. subst c1.
  destruct (chain_wf _ _ HT Hl) as [_ HT1].
  eapply sound_bind.
  { apply learn_sound; [done|].
    eapply row_ok_grow; [done | by apply chain_len | by apply chain_n_gens]. }
  intros [[r' c2] b] l2 _ Hl2 [Hc2 Hr']. simpl in Hc2, Hr'. subst c2.
  apply sound_ret. split; [done|]. simpl.
  pose proof (rows_ok_chain bad _ _ _ Hl2 Hrest') as Hrest2.
  destruct b; [done | by constructor].
Qed.

Lemma learn_all_sound n T rows :
  wf T → Forall (row_ok bad T) rows →
  sound bad T (learn_all n rows T)
    (λ a Tf, a.2 = Tf ∧ Forall (row_ok bad Tf) a.1).
Proof.
  revert T rows. induction n as [|n IH]; intros T rows HT Hrows.
  { split; simpl; done. }
  cbn [learn_all]. eapply sound_bind; [by apply scan_rows_sound|].
  intros [[rows' c'] learned] l _ Hl [Hc' Hrows']. simpl in Hc', Hrows'. subst c'.
  destruct (chain_wf _ _ HT Hl) as [_ HT1].
  destruct learned; [by apply IH|]. apply sound_ret. by split.
Qed.

Lemma add_coset_sound T :
  wf T →
  sound bad T
    (match add_coset T with
     | Ok (c2, true) => Done (c2, true) [c2]
     | Ok (c2, false) => Done (c2, false) []
     | Err e => Raise e []
     end)
    (λ a Tf, a.1 = Tf ∧ (if a.2 : bool then len Tf = S (len T) else saturated Tf)).
Proof.
  intros HT.
  destruct (add_coset_spec T HT)
    as [[-> Hsat]|(i & g & T' & -> & Hi & Hg & Hnone & Hset)].
  - apply sound_ret. by split.
  - split.
    + cbn [log_of chain]. split; [|done].
      exact (step_add _ _ _ _ Hi Hg Hnone Hset).
    + cbn beta iota. split; [done|]. cbn [snd].
      rewrite final_singleton, (set_len _ _ _ _ _ Hset). apply add_row_len.
Qed.

Lemma solve_loop_sound fuel rels T rows :
  wf T → Forall (row_ok bad T) rows → Forall (rel_ok bad (n_gens T)) rels →
  sound bad T (solve_loop fuel rels rows T)
    (λ T' Tf, T' = Tf ∧ (rows ≠ [] → rels ≠ [] → saturated Tf)).
Proof.
  revert T rows. induction fuel as [|fuel IH]; intros T rows HT Hrows Hrels.
  { destruct rows; [by apply sound_ret | split; simpl; done]. }
  destruct rows as [|r0 rows0]; [by apply sound_ret|].
  cbn [solve_loop]. set (rows := r0 :: rows0) in *.
  assert (rows ≠ []) as Hne by done. clearbody rows.
  eapply sound_bind; [by apply learn_all_sound|].
  intros [rows1 c1] l _ Hl [Hc1 Hrows1]. simpl in Hc1, Hrows1. subst c1.
  destruct (chain_wf _ _ HT Hl) as [_ HT1]. set (T1 := final T l) in *.
  eapply sound_bind; [by apply add_coset_sound|].
  intros [c2 added] l2 _ Hl2 [Hc2 Hadd]. simpl in Hc2, Hadd. subst c2.
  destruct (chain_wf _ _ HT1 Hl2) as [_ HT2]. set (T2 := final T1 l2) in *.
  destruct added; [|by apply sound_ret].
  assert (n_gens T2 = n_gens T) as Hn.
  { unfold T2, T1. by rewrite !chain_n_gens. }
  eapply sound_weaken.
  { apply IH; [done | | by rewrite Hn].
    apply Forall_app. split; [by apply rows_ok_chain|].
    apply Forall_fmap, Forall_forall. intros rl Hrl. simpl.
    apply Row_init_ok; [|lia]. rewrite Hn.
    exact (proj1 (Forall_forall _ _) Hrels rl Hrl). }
  intros T' Tf [-> Hsat]. split; [done|]. intros _ Hrl. apply Hsat; [|done].
  destruct rels; [done|]. by destruct rows1.
Qed.

Lemma fix_base_sound T subgens :
  wf T → 0 < len T → Forall (λ g, g < n_gens T) subgens →
  sound bad T (fix_base subgens T) (λ T' Tf, T' = Tf).
Proof.
  revert T. induction subgens as [|g subgens IH]; intros T HT Hlen Hg.
  { by apply sound_ret. }
  apply Forall_cons in Hg as [Hg Hrest]. cbn [fix_base].
  eapply sound_bind; [by apply sound_mutate|].
  intros T' l _ Hl ->. destruct (chain_wf _ _ HT Hl) as [_ HT1].
  apply IH; [done | |].
  - pose proof (chain_len _ _ Hl). lia.
  - by rewrite chain_n_gens.
Qed.
End Loops.

(** ** The symbol maps at the head of [solve] *)

Lemma list_index_Ok gens g i :
  list_index gens g = Ok i → i < length gens ∧ gens !! i = Some g.
Proof.
  revert i. induction gens as [|x gens IH]; intros i; simpl; [done|].
  case_decide as Hx.
  - intros [= <-]. subst. split; [lia | done].
  - destruct (list_index gens g) as [j|e]; simpl; [|done].
    intros [= <-]. destruct (IH j eq_refl). split; [lia | done].
Qed.

Lemma list_index_Err gens g e :
  list_index gens g = Err e → e = ValueError ∧ g ∉ gens.
Proof.
  induction gens as [|x gens IH]; simpl.
  - intros [= <-]. split; [done|]. apply not_elem_of_nil.
  - case_decide as Hx; [done|].
    destruct (list_index gens g) as [j|e']; simpl; [done|].
    intros [= <-]. destruct (IH eq_refl) as [-> Hnot]. split; [done|].
    rewrite elem_of_cons. naive_solver.
Qed.

Lemma list_index_elem gens g : g ∈ gens → ∃ i, list_index gens g = Ok i.
Proof.
  intros Hg. destruct (list_index gens g) as [i|e] eqn:E; [eauto|].
  by apply list_index_Err in E as [_ ?].
Qed.

(** The first position of [g], as [list.index] finds it. *)
Lemma list_index_first gens g i :
  list_index gens g = Ok i → ∀ j, j < i → gens !! j ≠ Some g.
Proof.
  revert i. induction gens as [|x gens IH]; intros i; simpl; [done|].
  case_decide as Hx.
  - intros [= <-] j Hj. lia.
  - destruct (list_index gens g) as [k|e]; simpl; [|done].
    intros [= <-] [|j] Hj; simpl; [congruence|]. apply (IH k eq_refl). lia.
Qed.

Lemma comprehend_Ok {A B} (f : A → result B) l l' :
  comprehend f l = Ok l' → Forall2 (λ x y, f x = Ok y) l l'.
Proof.
  revert l'. induction l as [|x l IH]; intros l'; simpl.
  - intros [= <-]. constructor.
  - destruct (f x) as [y|e] eqn:Hy; simpl; [|done].
    destruct (comprehend f l) as [ys|e]; simpl; [|done].
    intros [= <-]. constructor; [done | by apply IH].
Qed.

Lemma comprehend_Err {A B} (f : A → result B) l e :
  comprehend f l = Err e → ∃ x, x ∈ l ∧ f x = Err e.
Proof.
  induction l as [|x l IH]; simpl; [done|].
  destruct (f x) as [y|e'] eqn:Hy; simpl.
  - destruct (comprehend f l) as [ys|e']; simpl; [done|].
    intros [= <-]. destruct (IH eq_refl) as (z & Hz & Hfz).
    exists z. split; [by right | done].
  - intros [= <-]. exists x. split; [by left | done].
Qed.

Lemma comprehend_fails {A B} (f : A → result B) l x e :
  x ∈ l → f x = Err e → ∃ e', comprehend f l = Err e'.
Proof.
  intros Hx Hfx. destruct (comprehend f l) as [l'|e'] eqn:E; [|eauto].
  apply comprehend_Ok in E.
  destruct (list_elem_of_lookup_1 _ _ Hx) as [i Hi].
  destruct (Forall2_lookup_l _ _ _ i x E Hi) as (y & _ & Hy).
  congruence.
Qed.

(** ** [solve] as a whole *)

Lemma solve_unfold fuel gens subgens rels :
  solve fuel gens subgens rels =
  match comprehend (comprehend (list_index gens)) rels with
  | Err e => Raise e []
  | Ok rels' =>
      match comprehend (list_index gens) subgens with
      | Err e => Raise e []
      | Ok sg =>
          let T0 := Cosets_init (length gens) gens in
          match enumerate fuel (length gens) gens sg rels' with
          | Done T l => Done T (T0 :: l)
          | Raise e l => Raise e (T0 :: l)
          | Paused l => Paused (T0 :: l)
          end
      end
  end.
Proof.
  unfold solve, enumerate.
  destruct (comprehend (comprehend (list_index gens)) rels) as [rels'|e];
    [|done].
  destruct (comprehend (list_index gens) subgens) as [sg|e]; [|done].
  cbn [lift bind app].
  by destruct (bind (fix_base sg (Cosets_init (length gens) gens)) _).
Qed.

Lemma comprehend_index_lt gens w w' :
  comprehend (list_index gens) w = Ok w' → Forall (λ g, g < length gens) w'.
Proof.
  intros H%comprehend_Ok. induction H as [|s i w w' Hi _ IH]; constructor.
  - by apply list_index_Ok in Hi as [? _].
  - done.
Qed.

Lemma comprehend_nil_inv {A B} (f : A → result B) l :
  comprehend f l = Ok [] → l = [].
Proof.
  destruct l as [|x l]; simpl; [done|].
  destruct (f x); simpl; [|done]. by destruct (comprehend f l).
Qed.

Lemma mapped_rels gens rels rels' :
  comprehend (comprehend (list_index gens)) rels = Ok rels' →
  Forall (Forall (λ g, g < length gens)) rels' ∧ ([] ∈ rels' → [] ∈ rels).
Proof.
  intros H%comprehend_Ok. induction H as [|w w' rels rels' Hw _ [IH1 IH2]].
  - split; [apply Forall_nil_2 | by intros ?%elem_of_nil].
  - split.
    + apply Forall_cons_2; [by eapply comprehend_index_lt | done].
    + rewrite !elem_of_cons. intros [Hnil|Hin]; [|by right; apply IH2].
      left. subst w'. symmetry. by eapply comprehend_nil_inv.
Qed.

Lemma enumerate_sound fuel n nms sg rels' :
  Forall (λ g, g < n) sg → Forall (Forall (λ g, g < n)) rels' →
  sound ([] ∈ rels') (Cosets_init n nms) (enumerate fuel n nms sg rels')
    (λ T' Tf, T' = Tf ∧ (rels' ≠ [] → saturated Tf)).
Proof.
  intros Hsg Hrels. unfold enumerate. set (T0 := Cosets_init n nms).
  assert (wf T0) as HT0 by apply Cosets_init_wf.
  assert (len T0 = 1) as Hlen0 by done.
  assert (n_gens T0 = n) as Hn0 by done.
  eapply sound_bind.
  { apply fix_base_sound; [done | lia | by rewrite Hn0]. }
  intros T1 l _ Hl ->. destruct (chain_wf _ _ HT0 Hl) as [_ HT1].
  pose proof (chain_len _ _ Hl) as Hlen1.
  pose proof (chain_n_gens _ _ Hl) as Hn1. rewrite Hn0 in Hn1.
  assert (Forall (rel_ok ([] ∈ rels') n) rels') as Hok.
  { apply Forall_forall. intros rl Hrl. split.
    - exact (proj1 (Forall_forall _ _) Hrels rl Hrl).
    - by intros ->. }
  eapply sound_weaken.
  { apply solve_loop_sound; [done | | by rewrite Hn1].
    apply Forall_fmap, Forall_forall. intros rl Hrl. simpl.
    apply Row_init_ok; [|lia]. rewrite Hn1.
    exact (proj1 (Forall_forall _ _) Hok rl Hrl). }
  intros T' Tf [-> Hsat]. split; [done|]. intros Hrl. apply Hsat; [|done].
  by destruct rels'.
Qed.

(** The shape of every run of [solve].  A symbol outside the alphabet
    raises [ValueError] before anything is logged.  Otherwise the log
    opens with the table the constructor built and goes on as a chain of
    steps; a table that is returned is the last one logged, and it is
    saturated unless there was no relator at all; and the only other
    exception is the [IndexError] of an empty relator. *)
Lemma solve_run fuel gens subgens rels :
  let T0 := Cosets_init (length gens) gens in
  match solve fuel gens subgens rels with
  | Done T l =>
      ∃ l', l = T0 :: l' ∧ chain T0 l' ∧ T = final T0 l'
            ∧ (rels ≠ [] → saturated T)
  | Raise e l =>
      (e = ValueError ∧ l = []
       ∧ ∃ s, s ∉ gens ∧ (s ∈ subgens ∨ ∃ w, w ∈ rels ∧ s ∈ w))
      ∨ (e = IndexError ∧ [] ∈ rels ∧ ∃ l', l = T0 :: l' ∧ chain T0 l')
  | Paused l => ∃ l', l = T0 :: l' ∧ chain T0 l'
  end.
Proof.
  intros T0. rewrite solve_unfold.
  destruct (comprehend (comprehend (list_index gens)) rels) as [rels'|e] eqn:Hrels.
  2:{ left. apply comprehend_Err in Hrels as (w & Hw & Hrels).
      apply comprehend_Err in Hrels as (s & Hs & Hrels).
      apply list_index_Err in Hrels as [-> Hnot]. split_and!; [done..|].
      exists s. split; [done|]. right. eauto. }
  destruct (comprehend (list_index gens) subgens) as [sg|e] eqn:Hsg.
  2:{ left. apply comprehend_Err in Hsg as (s & Hs & Hsg).
      apply list_index_Err in Hsg as [-> Hnot]. split_and!; [done..|].
      exists s. split; [done|]. by left. }
  destruct (mapped_rels _ _ _ Hrels) as [Hlt Hnil].
  pose proof (enumerate_sound fuel (length gens) gens sg rels'
                (comprehend_index_lt _ _ _ Hsg) Hlt) as [Hchain Hend].
  fold T0 in Hchain, Hend. cbn zeta.
  destruct (enumerate fuel (length gens) gens sg rels') as [T l|e l|l];
    simpl in Hchain, Hend.
  - exists l. destruct Hend as [-> Hsat]. split_and!; [done..|].
    intros Hne. apply Hsat. intros ->. by apply comprehend_nil_inv in Hrels.
  - right. destruct Hend as [Hbad ->]. split_and!; [done | by apply Hnil |].
    by exists l.
  - by exists l.
Qed.

(** ** Claims about whole runs of [solve] *)

(** C9.  Every table that [solve] logs, and so the table it returns, is
    well-formed: both arrays have one row per coset, every row has one
    column per generator, and every defined entry is a coset of the table.
    Inside such a table [get], [rget] and [set] do not raise, and [solve]
    never raises [IndexError] out of the table: the one [IndexError] it
    can raise is the subscript of an empty relator. *)
Theorem table_in_bounds (fuel : nat) (gens subgens : list ascii)
    (rels : list (list ascii)) :
  Forall wf (log_of (solve fuel gens subgens rels))
  ∧ (∀ T l, solve fuel gens subgens rels = Done T l → wf T)
  ∧ (∀ T c g t, T ∈ log_of (solve fuel gens subgens rels) →
       c < len T → t < len T → g < n_gens T →
       get T c g = Ok (fwd T c g) ∧ rget T g t = Ok (rev T t g)
       ∧ ∃ T', set T c g t = Ok T')
  ∧ (∀ l, solve fuel gens subgens rels = Raise IndexError l → [] ∈ rels).
Proof.
  pose proof (solve_run fuel gens subgens rels) as Hrun. cbn zeta in Hrun.
  set (T0 := Cosets_init (length gens) gens) in *.
  assert (wf T0) as HT0 by apply Cosets_init_wf.
  assert (Forall wf (log_of (solve fuel gens subgens rels))) as Hlog.
  { destruct (solve fuel gens subgens rels) as [T l|e l|l]; simpl.
    - destruct Hrun as (l' & -> & Hl' & _).
      constructor; [done|]. by apply (chain_wf T0).
    - destruct Hrun as [(_ & -> & _)|(_ & _ & l' & -> & Hl')]; [constructor|].
      constructor; [done|]. by apply (chain_wf T0).
    - destruct Hrun as (l' & -> & Hl').
      constructor; [done|]. by apply (chain_wf T0). }
  split_and!; [done | | |].
  - intros T l Heq. rewrite Heq in Hrun.
    destruct Hrun as (l' & -> & Hl' & -> & _). by apply chain_wf.
  - intros T c g t HT Hc Ht Hg.
    pose proof (proj1 (Forall_forall _ _) Hlog T HT) as HwT.
    split_and!; [by apply get_in_range | by apply rget_in_range
                | by apply set_in_range].
  - intros l Heq. rewrite Heq in Hrun.
    by destruct Hrun as [(? & _)|(_ & ? & _)].
Qed.

(** With at least one relator, the [while rows] loop of [solve] is left
    only through the [break] that follows an [add_coset] answering
    [False]: when [solve] returns normally on such a presentation, every
    entry of the forward array it returns is defined. *)
Theorem solve_saturated (fuel : nat) (gens subgens : list ascii)
    (rels : list (list ascii)) (T : Cosets) (l : list Cosets)
    (Hrels : rels ≠ []) (Hrun : solve fuel gens subgens rels = Done T l) :
  saturated T.
Proof.
  pose proof (solve_run fuel gens subgens rels) as H. rewrite Hrun in H.
  destruct H as (l' & _ & _ & _ & Hsat). by apply Hsat.
Qed.

(** C2.  The code breaks the claim at [solve(['a','b'], [], [])]: the row
    list is empty, the guard of [while rows] fails before the loop body
    has run once, and [solve] returns the table the constructor built,
    one coset with both forward entries undefined.  The docstring of the
    module promises the completed table, and every other normal return
    goes through the saturation test of [add_coset] ([solve_saturated]). *)
Lemma solve_returns_unsaturated :
  ∃ T l, solve 10 ["a"; "b"]%char [] [] = Done T l ∧ ¬ saturated T.
Proof.
  exists (mkCosets ["a"; "b"]%char 2 [[None; None]] [[None; None]]).
  eexists. split; [reflexivity|].
  intros Hsat. by destruct (Hsat 0 0 ltac:(vm_compute; lia) ltac:(vm_compute; lia)).
Qed.

Lemma comprehend_index_Err gens w e :
  comprehend (list_index gens) w = Err e → e = ValueError.
Proof.
  intros (s & _ & H)%comprehend_Err. by apply list_index_Err in H as [-> _].
Qed.

(** C6.  A symbol of a relator or of the subgroup generators that is not
    in the alphabet makes [solve] fail, and a Schlafli symbol whose length
    is not one less than the number of generators makes [schlafli] fail;
    both failures are [InvalidPresentation] conditions and both come with
    an empty log: no table has been built. *)
Theorem invalid_presentation_fails_fast :
  (∀ fuel gens subgens rels (s : ascii),
     s ∉ gens → (s ∈ subgens ∨ ∃ w, w ∈ rels ∧ s ∈ w) →
     ∃ e, InvalidPresentation e ∧ solve fuel gens subgens rels = Raise e [])
  ∧ (∀ (O : SetOrder) fuel gens subgens (coeffs : list Z),
       length gens ≠ length coeffs + 1 →
       ∃ e, InvalidPresentation e
            ∧ schlafli fuel gens subgens coeffs = Raise e []).
Proof.
  split.
  - intros fuel gens subgens rels s Hs Hin. exists ValueError.
    split; [by left|]. rewrite solve_unfold.
    assert (∃ e, list_index gens s = Err e) as [e0 He0].
    { destruct (list_index gens s) as [i|e] eqn:E; [|eauto].
      apply list_index_Ok in E as [_ E]. destruct Hs.
      by eapply list_elem_of_lookup_2. }
    destruct (comprehend (comprehend (list_index gens)) rels)
      as [rels'|e] eqn:Hrels.
    2:{ apply comprehend_Err in Hrels as (w & _ & Hw).
        by apply comprehend_index_Err in Hw as ->. }
    destruct Hin as [Hin|(w & Hw & Hsw)].
    + destruct (comprehend_fails _ _ _ _ Hin He0) as [e' He']. rewrite He'.
      by apply comprehend_index_Err in He' as ->.
    + destruct (comprehend_fails _ _ _ _ Hsw He0) as [e' He'].
      destruct (comprehend_fails _ _ _ _ Hw He') as [e'' He'']. congruence.
  - intros O fuel gens subgens coeffs Hlen. exists AssertionError.
    split; [by right|]. unfold schlafli. by rewrite decide_False.
Qed.

Lemma invalid_presentation_fails_fast_witness :
  (∃ e, InvalidPresentation e
        ∧ solve 10 ["a"; "b"]%char ["c"]%char [["a"; "b"]]%char = Raise e [])
  ∧ (∃ e, InvalidPresentation e
          ∧ @schlafli canonical_order 10 ["a"; "b"]%char [] [5; 3]%Z
            = Raise e []).
Proof.
  split.
  - apply (proj1 invalid_presentation_fails_fast 10 ["a"; "b"]%char
             ["c"]%char [["a"; "b"]]%char "c"%char).
    + apply (bool_decide_unpack _). by vm_compute.
    + left. apply (bool_decide_unpack _). by vm_compute.
  - apply (proj2 invalid_presentation_fails_fast canonical_order 10
             ["a"; "b"]%char [] [5; 3]%Z).
    simpl. lia.
Defined.

(** The run of [solve] on two generators without relators or subgroup
    generators, whatever the fuel: the row list is empty from the start,
    so the table of the constructor comes back as it is. *)
Lemma solve_no_relators (fuel : nat) (a b : ascii) :
  solve fuel [a; b] [] []
  = Done (mkCosets [a; b] 2 [[None; None]] [[None; None]])
         [mkCosets [a; b] 2 [[None; None]] [[None; None]]].
Proof. unfold solve. simpl. by destruct fuel. Qed.

(** C7, as amended.  [solve] has no coset ceiling and no [TooManyCosets]
    condition.  Whatever the presentation and however many cosets the
    table has reached, it raises only [ValueError], for a symbol of the
    relators or of the subgroup generators that is not in the alphabet,
    and [IndexError], for an empty relator.  On two generators with no
    relators and no subgroup generators it raises nothing.  And an
    enumeration that outgrows fifty cosets simply goes on: after sixty
    turns of the outer loop the run on the generators [a], [b] with the
    single relator [aa] is still going, has a table of more than fifty
    cosets, and has raised nothing. *)
Theorem solve_no_ceiling :
  (∀ fuel gens subgens rels e l,
     solve fuel gens subgens rels = Raise e l →
     (e = ValueError
      ∧ ∃ s, s ∉ gens ∧ (s ∈ subgens ∨ ∃ w, w ∈ rels ∧ s ∈ w))
     ∨ (e = IndexError ∧ [] ∈ rels))
  ∧ (∀ fuel (a b : ascii) e l, solve fuel [a; b] [] [] ≠ Raise e l)
  ∧ (∃ l T, solve 60 ["a"; "b"]%char [] [["a"; "a"]]%char = Paused l
            ∧ last l = Some T ∧ 50 < len T).
Proof.
  assert (∀ fuel gens subgens rels e l,
            solve fuel gens subgens rels = Raise e l →
            (e = ValueError
             ∧ ∃ s, s ∉ gens ∧ (s ∈ subgens ∨ ∃ w, w ∈ rels ∧ s ∈ w))
            ∨ (e = IndexError ∧ [] ∈ rels)) as Hraise.
  { intros fuel gens subgens rels e l Hrun.
    pose proof (solve_run fuel gens subgens rels) as H. rewrite Hrun in H.
    destruct H as [(-> & _ & Hs)|(-> & Hnil & _)]; [by left | by right]. }
  split_and!; [done | |].
  - intros fuel a b e l Hrun.
    destruct (Hraise _ _ _ _ _ _ Hrun)
      as [(_ & s & _ & [Hs|(w & Hw & _)])|(_ & Hnil)].
    + by apply elem_of_nil in Hs.
    + by apply elem_of_nil in Hw.
    + by apply elem_of_nil in Hnil.
  - eexists _, _. split_and!.
    + vm_compute. reflexivity.
    + vm_compute. reflexivity.
    + vm_compute. lia.
Qed.

Lemma solve_no_ceiling_witness :
  (ValueError = ValueError
   ∧ ∃ s, s ∉ ["a"; "b"]%char
          ∧ (s ∈ ["c"]%char ∨ ∃ w, w ∈ [["a"; "b"]]%char ∧ s ∈ w))
  ∨ (ValueError = IndexError ∧ [] ∈ [["a"; "b"]]%char).
Proof.
  apply (proj1 solve_no_ceiling 10 ["a"; "b"]%char ["c"]%char
           [["a"; "b"]]%char ValueError []).
  by vm_compute.
Defined.

(** C7 fails as stated: with room for fifty turns of the outer loop, the
    run on two generators without relators or subgroup generators raises
    nothing; it returns, with one coset. *)
Lemma solve_no_relators_returns :
  ∃ T l, solve 50 ["a"; "b"]%char [] [] = Done T l ∧ len T = 1
         ∧ ∀ e l', solve 50 ["a"; "b"]%char [] [] ≠ Raise e l'.
Proof. eexists _, _. split_and!; [reflexivity | reflexivity | done]. Qed.

(** ** Fuel *)

(** More fuel does not change a run that has returned. *)
Lemma solve_loop_mono fuel k rels rows c T l :
  solve_loop fuel rels rows c = Done T l →
  solve_loop (fuel + k) rels rows c = Done T l.
Proof.
  revert rows c T l. induction fuel as [|fuel IH]; intros rows c T l.
  { destruct rows; [by destruct k | done]. }
  destruct rows as [|r0 rows0]; [done|]. cbn [solve_loop Nat.add].
  destruct (learn_all _ _ _) as [[rows1 c1] l1|e l1|l1]; cbn [bind]; [|done..].
  destruct (add_coset c1) as [[c2 [|]]|e]; cbn [bind]; [| |done].
  - destruct (solve_loop fuel _ _ _) as [T' l'|e l'|l'] eqn:E; [|done..].
    by rewrite (IH _ _ _ _ E).
  - done.
Qed.

Lemma solve_mono fuel k gens subgens rels T l :
  solve fuel gens subgens rels = Done T l →
  solve (fuel + k) gens subgens rels = Done T l.
Proof.
  rewrite !solve_unfold.
  destruct (comprehend (comprehend (list_index gens)) rels) as [rels'|e];
    [|done].
  destruct (comprehend (list_index gens) subgens) as [sg|e]; [|done].
  cbn zeta. unfold enumerate.
  destruct (fix_base sg _) as [c1 l1|e l1|l1]; cbn [bind]; [|done..].
  destruct (solve_loop fuel _ _ _) as [T' l'|e l'|l'] eqn:E; [|done..].
  by rewrite (solve_loop_mono _ k _ _ _ _ _ E).
Qed.

(** ** The builders *)

Lemma iter_links_empty `{SetOrder} : iter_links ∅ = [].
Proof.
  apply Permutation_nil_r. rewrite iter_links_perm. by rewrite elements_empty.
Qed.

(** For the Schlafli symbol [(5,)] no link is missing, so the order in
    which sets are iterated does not matter. *)
Lemma schlafli_dihedral_rels `{SetOrder} fuel :
  schlafli fuel ["a"; "b"]%char ["a"]%char [5%Z]
  = solve fuel ["a"; "b"]%char ["a"]%char dihedral_rels.
Proof.
  unfold schlafli. rewrite decide_True by done.
  unfold coxeter. f_equal. unfold coxeter_rels.
  match goal with |- context [iter_links ?X] =>
    assert (X = ∅) as -> by (apply (bool_decide_unpack _); by vm_compute) end.
  rewrite iter_links_empty. reflexivity.
Qed.

(** C1.  [schlafli(['a','b'], ['a'], (5,))] terminates, whatever the order
    in which Python iterates its sets: five turns of the outer loop are
    enough, more change nothing, and the table returned has exactly five
    cosets. *)
Lemma solve_dihedral :
  solve 5 ["a"; "b"]%char ["a"]%char dihedral_rels
  = Done dihedral_table dihedral_log.
Proof. by vm_compute. Qed.

Theorem schlafli_dihedral (O : SetOrder) (k : nat) :
  schlafli (5 + k) ["a"; "b"]%char ["a"]%char [5%Z]
  = Done dihedral_table dihedral_log
  ∧ len dihedral_table = 5.
Proof.
  split; [|reflexivity].
  rewrite schlafli_dihedral_rels. apply solve_mono, solve_dihedral.
Qed.

Lemma solve_saturated_witness : saturated dihedral_table.
Proof.
  apply (solve_saturated 5 ["a"; "b"]%char ["a"]%char dihedral_rels
           dihedral_table dihedral_log); [done | by vm_compute].
Defined.

(** ** Invariants along a chain *)

Section Invariants.
Implicit Types (T : Cosets) (l : list Cosets).

Lemma adjacent_cons {A} (R : A → A → Prop) x y (l : list A) :
  adjacent R (x :: y :: l) ↔ R x y ∧ adjacent R (y :: l).
Proof. done. Qed.

Lemma adjacent_and {A} (R1 R2 : A → A → Prop) (l : list A) :
  adjacent R1 l → adjacent R2 l → adjacent (λ x y, R1 x y ∧ R2 x y) l.
Proof.
  induction l as [|x [|y l] IH]; [done..|].
  rewrite !adjacent_cons. naive_solver.
Qed.

Lemma chain_adjacent (P : Cosets → Cosets → Prop) T l :
  (∀ A B, step A B → P A B) → chain T l → adjacent P (T :: l).
Proof.
  intros HP. revert T. induction l as [|T' l IH]; intros T; [done|].
  intros [Hs Hl]. apply adjacent_cons. split; [by apply HP | by apply IH].
Qed.

(** An invariant [I] that every step relating its ends by [R] preserves
    holds all along a chain whose neighbours are related by [R]. *)
Lemma chain_invariant (I : Cosets → Prop) (R : Cosets → Cosets → Prop) T l :
  (∀ A B, I A → step A B → R A B → I B) →
  I T → chain T l → adjacent R (T :: l) → Forall I (T :: l).
Proof.
  intros Hstep. revert T. induction l as [|T' l IH]; intros T HT.
  { intros _ _. by apply Forall_singleton. }
  intros [Hs Hl] [HR Hadj]%adjacent_cons.
  constructor; [done|]. apply IH; [by eapply Hstep | done..].
Qed.

Lemma walk_keeps tab tab' x w y :
  keeps tab tab' → walk tab x w = Some y → walk tab' x w = Some y.
Proof.
  intros Hk. revert x. induction w as [|g w IH]; intros x; simpl; [done|].
  destruct (entry tab x g) as [z|] eqn:E; [|done].
  rewrite (Hk _ _ _ E). apply IH.
Qed.

(** A step is a [set] on a table with the entries of [T]. *)
Lemma step_as_set T T' :
  step T T' →
  ∃ S c g t, set S c g t = Ok T'
    ∧ (∀ a b, fwd S a b = fwd T a b) ∧ (∀ a b, rev S a b = rev T a b).
Proof.
  intros [c g t _ _ _ H|i g _ _ _ H].
  - by exists T, c, g, t.
  - exists (add_row T), i, g, (len T). split; [done|].
    split; intros a b; [apply add_row_fwd | apply add_row_rev].
Qed.

Lemma step_bisymmetric T T' :
  bisymmetric T → step T T' →
  keeps (cosets T) (cosets T') ∧ keeps (rcosets T) (rcosets T') →
  bisymmetric T'.
Proof.
  intros Hsym (S & c & g & t & Hset & Hf & Hr)%step_as_set [Hkf Hkr] a b x.
  rewrite (set_fwd _ _ _ _ _ a b Hset), (set_rev _ _ _ _ _ x b Hset).
  rewrite Hf, Hr. split.
  - case_decide as Hab.
    + destruct Hab as [-> ->]. intros [= <-]. by rewrite decide_True.
    + intros Hfwd. pose proof (proj1 (Hsym _ _ _) Hfwd) as Hrev.
      pose proof (Hkr _ _ _ Hrev) as Hrev'.
      fold (rev T' x b) in Hrev'.
      rewrite (set_rev _ _ _ _ _ x b Hset), Hr in Hrev'.
      case_decide; [|done]. by rewrite Hrev'.
  - case_decide as Hxb.
    + destruct Hxb as [-> ->]. intros [= <-]. by rewrite decide_True.
    + intros Hrev. pose proof (proj2 (Hsym _ _ _) Hrev) as Hfwd.
      pose proof (Hkf _ _ _ Hfwd) as Hfwd'.
      fold (fwd T' a b) in Hfwd'.
      rewrite (set_fwd _ _ _ _ _ a b Hset), Hf in Hfwd'.
      case_decide; [|done]. by rewrite Hfwd'.
Qed.

Lemma Cosets_init_bisymmetric n nms : bisymmetric (Cosets_init n nms).
Proof. intros c g t. by rewrite Cosets_init_fwd, Cosets_init_rev. Qed.

Lemma step_grows_by_edge T T' : step T T' → grows_by_edge T T'.
Proof.
  intros [c g t _ _ _ H|i g Hi _ _ H].
  - left. by eapply set_len.
  - right. split.
    + rewrite (set_len _ _ _ _ _ H). apply add_row_len.
    + exists i, g. split; [done|].
      rewrite (set_fwd _ _ _ _ _ i g H). by rewrite decide_True.
Qed.

Lemma step_reachable T T' :
  (∀ c, c < len T → reachable T c) → step T T' →
  keeps (cosets T) (cosets T') →
  ∀ c, c < len T' → reachable T' c.
Proof.
  intros Hreach Hstep Hk c Hc.
  assert (∀ d, d < len T → reachable T' d) as Hold.
  { intros d Hd. destruct (Hreach d Hd) as [w Hw]. exists w.
    by eapply walk_keeps. }
  destruct (step_grows_by_edge _ _ Hstep) as [Hlen|(Hlen & i & g & Hi & Hedge)].
  - apply Hold. lia.
  - destruct (decide (c < len T)) as [Hlt|Hge]; [by apply Hold|].
    assert (c = len T) as -> by lia.
    destruct (Hold i Hi) as [w Hw]. exists (w ++ [g]).
    by eapply walk_snoc.
Qed.

Lemma Cosets_init_reachable n nms c :
  c < len (Cosets_init n nms) → reachable (Cosets_init n nms) c.
Proof.
  intros Hc. assert (c = 0) as -> by (unfold len in Hc; simpl in Hc; lia).
  by exists [].
Qed.
End Invariants.

(** The log of [solve] is empty or a chain from the constructor's table. *)
Lemma solve_log fuel gens subgens rels :
  log_of (solve fuel gens subgens rels) = []
  ∨ ∃ l', log_of (solve fuel gens subgens rels)
          = Cosets_init (length gens) gens :: l'
          ∧ chain (Cosets_init (length gens) gens) l'.
Proof.
  pose proof (solve_run fuel gens subgens rels) as Hrun. cbn zeta in Hrun.
  destruct (solve fuel gens subgens rels) as [T l|e l|l]; simpl.
  - destruct Hrun as (l' & -> & Hl' & _). right. eauto.
  - destruct Hrun as [(_ & -> & _)|(_ & _ & l' & -> & Hl')]; [by left|].
    right. eauto.
  - destruct Hrun as (l' & -> & Hl'). right. eauto.
Qed.

(** C3, as amended.  In a run in which no call overwrites a defined entry
    of the forward or of the reverse array with a different value, the
    table is symmetric after the constructor and after every mutating
    call: whenever [forward[c][g] = t] is defined, [reverse[t][g]] is
    defined and equals [c] (and conversely). *)
Theorem symmetry_without_overwrite (fuel : nat) (gens subgens : list ascii)
    (rels : list (list ascii))
    (Hfwd : forward_stable (log_of (solve fuel gens subgens rels)))
    (Hrev : reverse_stable (log_of (solve fuel gens subgens rels))) :
  Forall (λ T, symmetric T ∧ bisymmetric T)
    (log_of (solve fuel gens subgens rels)).
Proof.
  destruct (solve_log fuel gens subgens rels) as [->|(l' & Hlog & Hchain)];
    [constructor|].
  rewrite Hlog in *.
  eapply Forall_impl.
  - apply (chain_invariant bisymmetric
             (λ T T', keeps (cosets T) (cosets T')
                      ∧ keeps (rcosets T) (rcosets T'))).
    + apply step_bisymmetric.
    + apply Cosets_init_bisymmetric.
    + done.
    + by apply adjacent_and.
  - intros T HT. split; [|done]. intros c g t. apply HT.
Qed.

(** C3 fails as stated: the relators [aa] and [aaa] on one generator make
    [learn] overwrite, and the table returned has [forward[1][a] = 0]
    while [reverse[0][a]] is [0], not [1]. *)
Lemma symmetry_broken_by_overwrite :
  ∃ T l, solve 10 ["a"]%char [] [["a"; "a"]; ["a"; "a"; "a"]]%char = Done T l
         ∧ fwd T 1 0 = Some 0 ∧ rev T 0 0 = Some 0 ∧ ¬ symmetric T.
Proof.
  eexists _, _. split; [by vm_compute|]. split_and!; [done..|].
  intros Hsym. by specialize (Hsym 1 0 0 eq_refl).
Qed.

(** C10.  In a run of [solve] in which no call overwrites a defined
    forward entry with a different value, every coset of every logged
    table is reached from coset 0 along defined forward entries.  The
    reason is visible in the log of any run: a step that creates a coset
    [k] leaves a forward edge to [k] from a coset [i < k]. *)
Theorem reachable_without_overwrite (fuel : nat) (gens subgens : list ascii)
    (rels : list (list ascii))
    (Hfwd : forward_stable (log_of (solve fuel gens subgens rels))) :
  (∀ T, T ∈ log_of (solve fuel gens subgens rels) →
        ∀ c, c < len T → reachable T c)
  ∧ adjacent grows_by_edge (log_of (solve fuel gens subgens rels)).
Proof.
  destruct (solve_log fuel gens subgens rels) as [->|(l' & Hlog & Hchain)].
  { split; [by intros T ?%elem_of_nil | done]. }
  rewrite Hlog in *. split.
  - apply (proj1 (Forall_forall (λ T, ∀ c, c < len T → reachable T c) _)).
    apply (chain_invariant (λ T, ∀ c, c < len T → reachable T c)
             (λ T T', keeps (cosets T) (cosets T'))); try done.
    + apply step_reachable.
    + apply Cosets_init_reachable.
  - apply chain_adjacent; [apply step_grows_by_edge | done].
Qed.

(** ** Soundness of the executable checks *)

Lemma widest_ge tab i (row : list (option nat)) :
  tab !! i = Some row → length row ≤ widest tab.
Proof.
  revert i. induction tab as [|r tab IH]; intros [|i]; simpl; try done.
  - intros [= ->]. lia.
  - intros H%IH. lia.
Qed.

Lemma keepsb_keeps tab tab' : keepsb tab tab' = true → keeps tab tab'.
Proof.
  intros H i j v E. unfold keepsb in H.
  rewrite forallb_forall in H.
  assert (i < length tab) as Hi by by eapply entry_Some_lt.
  specialize (H i ltac:(apply in_seq; lia)). rewrite forallb_forall in H.
  assert (j < widest tab) as Hj.
  { unfold entry in E. destruct (tab !! i) as [row|] eqn:Hrow; [|done].
    destruct (row !! j) eqn:Hv; [|done]. apply lookup_lt_Some in Hv.
    pose proof (widest_ge _ _ _ Hrow). lia. }
  specialize (H j ltac:(apply in_seq; lia)). rewrite E in H.
  by apply bool_decide_eq_true in H.
Qed.

Lemma adjacentb_adjacent {A} (f : A → A → bool) (R : A → A → Prop) l :
  (∀ x y, f x y = true → R x y) → adjacentb f l = true → adjacent R l.
Proof.
  intros HfR. induction l as [|x [|y l] IH]; [done..|].
  cbn [adjacentb]. intros [Hxy Hl]%andb_true_iff.
  apply adjacent_cons. split; [by apply HfR | by apply IH].
Qed.

Lemma forward_stable_check log :
  adjacentb (λ T T', keepsb (cosets T) (cosets T')) log = true →
  forward_stable log.
Proof. apply adjacentb_adjacent. intros T T'. apply keepsb_keeps. Qed.

Lemma reverse_stable_check log :
  adjacentb (λ T T', keepsb (rcosets T) (rcosets T')) log = true →
  reverse_stable log.
Proof. apply adjacentb_adjacent. intros T T'. apply keepsb_keeps. Qed.

Lemma wf_check_wf T : wf_check T → wf T.
Proof.
  intros (Hrows & Hw & Hrw & Hf & Hr).
  assert (∀ tab c g t,
            Forall (Forall (λ v : option nat, default 0 v < len T)) tab →
            entry tab c g = Some t → t < len T) as Hentry.
  { intros tab c g t Hall. unfold entry.
    destruct (tab !! c) as [row|] eqn:Hrow; [|done].
    destruct (row !! g) as [v|] eqn:Hv; [|done]. intros ->.
    exact (Forall_lookup_1 _ _ _ _ (Forall_lookup_1 _ _ _ _ Hall Hrow) Hv). }
  split; [done | done | done | |].
  - intros c g t. by apply Hentry.
  - intros t g c. by apply Hentry.
Qed.

Lemma symmetry_without_overwrite_witness :
  Forall (λ T, symmetric T ∧ bisymmetric T)
    (log_of (solve 5 ["a"; "b"]%char ["a"]%char dihedral_rels)).
Proof.
  apply (symmetry_without_overwrite 5 ["a"; "b"]%char ["a"]%char dihedral_rels).
  - apply forward_stable_check. by vm_compute.
  - apply reverse_stable_check. by vm_compute.
Defined.

Lemma reachable_without_overwrite_witness :
  (∀ T, T ∈ log_of (solve 5 ["a"; "b"]%char ["a"]%char dihedral_rels) →
        ∀ c, c < len T → reachable T c)
  ∧ adjacent grows_by_edge
      (log_of (solve 5 ["a"; "b"]%char ["a"]%char dihedral_rels)).
Proof.
  apply (reachable_without_overwrite 5 ["a"; "b"]%char ["a"]%char dihedral_rels).
  apply forward_stable_check. by vm_compute.
Defined.

Lemma learn_spec_witness :
  let T := mkCosets ["a"; "b"]%char 2 [[Some 0; None]] [[Some 0; None]] in
  let r := Row_init [0; 0] 0 in
  ((left r + 1 = right r)%Z → learn r T = Done (r, T, false) []) ∧
  ((left r + 1 ≠ right r)%Z →
   ∃ r' : Row,
     rel r' = rel r ∧ (left r ≤ left r' < right r')%Z ∧ (right r' ≤ right r)%Z
     ∧ walk (cosets T) (left_coset r) (segment (rel r) (left r) (left r'))
       = Some (left_coset r')
     ∧ walk (rcosets T) (right_target r)
         (reverse (segment (rel r) (right r') (right r)))
       = Some (right_target r')
     ∧ (right r' = right r
        ∨ ∃ g, rel r !! Z.to_nat (left r') = Some g
               ∧ fwd T (left_coset r') g = None)
     ∧ ((left r' + 1 = right r')%Z →
        ∃ g T', rel r !! Z.to_nat (left r') = Some g
          ∧ set T (left_coset r') g (right_target r') = Ok T'
          ∧ learn r T = Done (r', T', true) [T'])
     ∧ ((left r' + 1 ≠ right r')%Z →
        (∃ g, rel r !! Z.to_nat (left r') = Some g
              ∧ fwd T (left_coset r') g = None)
        ∧ (∃ g, rel r !! Z.to_nat (right r' - 1) = Some g
                ∧ rev T (right_target r') g = None)
        ∧ learn r T = Done (r', T, false) [])).
Proof.
  intros T r. apply (learn_spec T r).
  - apply wf_check_wf. apply (bool_decide_unpack _). by vm_compute.
  - split; [simpl; lia | vm_compute; lia | vm_compute; lia |].
    apply (bool_decide_unpack _). by vm_compute.
Defined.

(** ** [coxeter] *)

Section Coxeter.
Context `{SetOrder}.
Implicit Types (gens : list ascii) (rels : list (list ascii)) (g h : ascii).

Lemma elem_of_permutations2 {A} (l : list A) (x y : A) :
  (x, y) ∈ permutations2 l ↔
  ∃ i j, i ≠ j ∧ l !! i = Some x ∧ l !! j = Some y.
Proof.
  unfold permutations2. rewrite list_elem_of_bind. split.
  - intros ([i x'] & Hin & (i' & x'' & [= -> ->] & Hi)%elem_of_lookup_imap).
    apply list_elem_of_bind in Hin
      as ([j y'] & Hin & (j' & y'' & [= -> ->] & Hj)%elem_of_lookup_imap).
    simpl in Hin. case_decide as Hij; [by apply elem_of_nil in Hin|].
    apply list_elem_of_singleton in Hin as [= -> ->]. eauto.
  - intros (i & j & Hij & Hi & Hj). exists (i, x). split.
    + apply list_elem_of_bind. exists (j, y). split.
      * simpl. rewrite decide_False by done. by apply list_elem_of_singleton.
      * by apply (elem_of_lookup_imap_2 pair).
    + by apply (elem_of_lookup_imap_2 pair).
Qed.

Lemma elem_of_permutations2_NoDup {A} (l : list A) (x y : A) :
  NoDup l → (x, y) ∈ permutations2 l ↔ x ∈ l ∧ y ∈ l ∧ x ≠ y.
Proof.
  intros Hnd. rewrite elem_of_permutations2. split.
  - intros (i & j & Hij & Hi & Hj). split_and!.
    + by eapply list_elem_of_lookup_2.
    + by eapply list_elem_of_lookup_2.
    + intros ->. apply Hij. by eapply NoDup_lookup.
  - intros ((i & Hi)%list_elem_of_lookup_1 & (j & Hj)%list_elem_of_lookup_1 & Hne).
    exists i, j. split_and!; [|done..]. intros ->. congruence.
Qed.

Lemma elem_of_frozenset w x : x ∈ frozenset w ↔ x ∈ w.
Proof. apply elem_of_list_to_set. Qed.

Lemma str_mul_2 {A} (s : list A) : str_mul s 2 = s ++ s.
Proof. unfold str_mul. simpl. by rewrite app_nil_r. Qed.

(** The word built from a link spells the link again. *)
Lemma frozenset_link_word (link : gset ascii) :
  frozenset (str_mul (iter_chars link) 2) = link.
Proof.
  apply set_eq. intros x. rewrite elem_of_frozenset, str_mul_2, elem_of_app.
  rewrite iter_chars_perm, elem_of_elements. naive_solver.
Qed.

(** The word built from a link of two letters. *)
Lemma pair_link_word g h :
  g ≠ h →
  str_mul (iter_chars (frozenset [g; h])) 2 = [g; h; g; h]
  ∨ str_mul (iter_chars (frozenset [g; h])) 2 = [h; g; h; g].
Proof.
  intros Hne. rewrite str_mul_2.
  assert ([g; h] ≡ₚ iter_chars (frozenset [g; h])) as Hperm.
  { rewrite iter_chars_perm. unfold frozenset. symmetry.
    apply elements_list_to_set. apply NoDup_cons. split.
    - by intros ?%list_elem_of_singleton.
    - apply NoDup_singleton. }
  destruct (Permutation_length_2_inv Hperm) as [->| ->]; [by left | by right].
Qed.

Lemma frozenset_pair_given rels g h :
  frozenset [g; h] ∈ (list_to_set (frozenset <$> rels) : gset (gset ascii))
  ↔ given rels g h.
Proof.
  rewrite elem_of_list_to_set, list_elem_of_fmap. unfold given. split.
  - intros (w & Heq & Hw). exists w. split; [done|]. intros x.
    rewrite <- elem_of_frozenset, <- Heq, elem_of_frozenset.
    rewrite !elem_of_cons, elem_of_nil. naive_solver.
  - intros (w & Hw & Hletters). exists w. split; [|done].
    apply set_eq. intros x. rewrite !elem_of_frozenset, Hletters.
    rewrite !elem_of_cons, elem_of_nil. naive_solver.
Qed.

Lemma coxeter_rels_eq gens rels :
  coxeter_rels gens rels
  = rels ++ commuting gens rels ++ ((λ g, [g; g]) <$> gens).
Proof. unfold coxeter_rels, commuting. by rewrite <- app_assoc. Qed.

Lemma elem_of_missing gens rels (link : gset ascii) :
  NoDup gens →
  link ∈ ((list_to_set ((λ p : ascii * ascii, frozenset [p.1; p.2])
                          <$> permutations2 gens) : gset (gset ascii))
          ∖ list_to_set (frozenset <$> rels))
  ↔ ∃ g h, link = frozenset [g; h] ∧ g ∈ gens ∧ h ∈ gens ∧ g ≠ h
           ∧ ¬ given rels g h.
Proof.
  intros Hnd. rewrite elem_of_difference, elem_of_list_to_set, list_elem_of_fmap.
  split.
  - intros [([g h] & -> & Hgh) Hnot]. simpl in *.
    apply elem_of_permutations2_NoDup in Hgh as (Hg & Hh & Hne); [|done].
    exists g, h. split_and!; [done..|]. by rewrite <- frozenset_pair_given.
  - intros (g & h & -> & Hg & Hh & Hne & Hnot). split.
    + exists (g, h). split; [done|]. by apply elem_of_permutations2_NoDup.
    + by rewrite frozenset_pair_given.
Qed.

Lemma elem_of_commuting gens rels w :
  NoDup gens →
  w ∈ commuting gens rels →
  ∃ g h, w = [g; h; g; h] ∧ g ∈ gens ∧ h ∈ gens ∧ g ≠ h ∧ ¬ given rels g h.
Proof.
  intros Hnd (link & -> & Hlink)%list_elem_of_fmap.
  rewrite iter_links_perm, elem_of_elements in Hlink.
  apply elem_of_missing in Hlink as (g & h & -> & Hg & Hh & Hne & Hnot); [|done].
  destruct (pair_link_word g h Hne) as [-> | ->].
  - exists g, h. done.
  - exists h, g. split_and!; try done. intros (w & Hw & Hl). apply Hnot.
    exists w. split; [done|]. intros x. rewrite Hl. naive_solver.
Qed.

Lemma commuting_complete gens rels g h :
  NoDup gens → g ∈ gens → h ∈ gens → g ≠ h → ¬ given rels g h →
  [g; h; g; h] ∈ commuting gens rels ∨ [h; g; h; g] ∈ commuting gens rels.
Proof.
  intros Hnd Hg Hh Hne Hnot.
  assert (str_mul (iter_chars (frozenset [g; h])) 2 ∈ commuting gens rels) as Hin.
  { apply list_elem_of_fmap. exists (frozenset [g; h]). split; [done|].
    rewrite iter_links_perm, elem_of_elements. apply elem_of_missing; [done|].
    exists g, h. done. }
  destruct (pair_link_word g h Hne) as [Heq|Heq]; rewrite Heq in Hin; auto.
Qed.

Lemma commuting_NoDup gens rels : NoDup (commuting gens rels).
Proof.
  apply NoDup_fmap_2_strong.
  - intros x y _ _ Heq. by rewrite <- (frozenset_link_word x), Heq, frozenset_link_word.
  - rewrite iter_links_perm. apply NoDup_elements.
Qed.

Lemma commuting_one_orientation gens rels g h :
  g ≠ h →
  ¬ ([g; h; g; h] ∈ commuting gens rels ∧ [h; g; h; g] ∈ commuting gens rels).
Proof.
  intros Hne [(l1 & H1 & _)%list_elem_of_fmap (l2 & H2 & _)%list_elem_of_fmap].
  assert (l1 = l2) as ->.
  { rewrite <- (frozenset_link_word l1), <- (frozenset_link_word l2), <- H1, <- H2.
    apply set_eq. intros x. rewrite !elem_of_frozenset, !elem_of_cons, elem_of_nil.
    naive_solver. }
  congruence.
Qed.
End Coxeter.

(** What [coxeter] hands to [solve].  For an alphabet of distinct symbols,
    [coxeter(gens, subgens, rels)] is [solve] applied to [gens], [subgens]
    and [rels] extended with a list [comm] of commuting relators and then
    with the order-2 relator [gg] of every generator, paired or not.
    [comm] holds no relator twice; each of its relators is [(gh)(gh)] for
    two distinct generators whose pair was not given a relator; and every
    such pair has its relator in [comm], in exactly one of the two
    orientations [(gh)(gh)] and [(hg)(hg)]. *)
Theorem coxeter_refines_solve (O : SetOrder) (fuel : nat)
    (gens subgens : list ascii) (rels : list (list ascii))
    (Hgens : NoDup gens) :
  ∃ comm : list (list ascii),
    coxeter fuel gens subgens rels
    = solve fuel gens subgens (rels ++ comm ++ ((λ g, [g; g]) <$> gens))
    ∧ NoDup comm
    ∧ (∀ w, w ∈ comm →
         ∃ g h, w = [g; h; g; h] ∧ g ∈ gens ∧ h ∈ gens ∧ g ≠ h
                ∧ ¬ given rels g h)
    ∧ (∀ g h, g ∈ gens → h ∈ gens → g ≠ h → ¬ given rels g h →
         ([g; h; g; h] ∈ comm ∨ [h; g; h; g] ∈ comm)
         ∧ ¬ ([g; h; g; h] ∈ comm ∧ [h; g; h; g] ∈ comm)).
Proof.
  exists (commuting gens rels). split_and!.
  - unfold coxeter. by rewrite coxeter_rels_eq.
  - apply commuting_NoDup.
  - intros w. by apply elem_of_commuting.
  - intros g h Hg Hh Hne Hnot. split.
    + by apply commuting_complete.
    + by apply commuting_one_orientation.
Qed.

Lemma coxeter_refines_solve_witness :
  ∃ comm : list (list ascii),
    @coxeter canonical_order 5 ["a"; "b"; "c"]%char ["a"]%char
      [["a"; "b"; "a"; "b"; "a"; "b"]]%char
    = solve 5 ["a"; "b"; "c"]%char ["a"]%char
        ([["a"; "b"; "a"; "b"; "a"; "b"]]%char
         ++ comm ++ ((λ g, [g; g]) <$> ["a"; "b"; "c"]%char))
    ∧ NoDup comm
    ∧ (∀ w, w ∈ comm →
         ∃ g h, w = [g; h; g; h] ∧ g ∈ ["a"; "b"; "c"]%char
                ∧ h ∈ ["a"; "b"; "c"]%char ∧ g ≠ h
                ∧ ¬ given [["a"; "b"; "a"; "b"; "a"; "b"]]%char g h)
    ∧ (∀ g h, g ∈ ["a"; "b"; "c"]%char → h ∈ ["a"; "b"; "c"]%char → g ≠ h →
         ¬ given [["a"; "b"; "a"; "b"; "a"; "b"]]%char g h →
         ([g; h; g; h] ∈ comm ∨ [h; g; h; g] ∈ comm)
         ∧ ¬ ([g; h; g; h] ∈ comm ∧ [h; g; h; g] ∈ comm)).
Proof.
  apply (coxeter_refines_solve canonical_order 5 ["a"; "b"; "c"]%char
           ["a"]%char [["a"; "b"; "a"; "b"; "a"; "b"]]%char).
  apply (bool_decide_unpack _). by vm_compute.
Defined.

(** * Further properties of the code *)

(** ** Termination of the inner loops *)

Lemma bind_Paused {A B} (m : outcome A) (f : A → outcome B) l :
  bind m f = Paused l →
  m = Paused l ∨ ∃ a l1 l2, m = Done a l1 ∧ f a = Paused l2 ∧ l = l1 ++ l2.
Proof.
  destruct m as [a l1|e l1|l1]; simpl; [|done|by intros [= ->]; left].
  destruct (f a) as [b l2|e l2|l2] eqn:E; [done..|].
  intros [= <-]. right. by exists a, l1, l2.
Qed.

Lemma lift_not_Paused {A} (m : result A) l : lift m ≠ Paused l.
Proof. by destruct m. Qed.

Lemma mutate_not_Paused m l : mutate m ≠ Paused l.
Proof. by destruct m. Qed.

(** The first [while] of [learn] ends within [left_fuel] turns, whatever
    the row and the table: it returns or raises. *)
Lemma advance_left_fuel n r T l :
  left_fuel r ≤ n → advance_left n r T ≠ Paused l.
Proof.
  revert r l. induction n as [|n IH]; intros r l Hn.
  { unfold left_fuel in Hn. lia. }
  cbn [advance_left]. case_decide as Hstop; [done|].
  intros [H|(g & l1 & l2 & Hg & H & _)]%bind_Paused;
    [by apply lift_not_Paused in H|].
  apply bind_Paused in H as [H2|(o & l3 & l4 & Ho & H2 & _)];
    [by apply lift_not_Paused in H2|].
  destruct o as [t|]; [|done]. revert H2. apply IH.
  destruct (left_gen r) as [g'|] eqn:Hgen; [|done].
  apply py_index_Ok_range in Hgen. unfold left_fuel in *. simpl. lia.
Qed.

Lemma advance_right_fuel n r T l :
  right_fuel r ≤ n → advance_right n r T ≠ Paused l.
Proof.
  revert r l. induction n as [|n IH]; intros r l Hn.
  { unfold right_fuel in Hn. lia. }
  cbn [advance_right]. case_decide as Hstop; [done|].
  intros [H|(g & l1 & l2 & Hg & H & _)]%bind_Paused;
    [by apply lift_not_Paused in H|].
  apply bind_Paused in H as [H2|(o & l3 & l4 & Ho & H2 & _)];
    [by apply lift_not_Paused in H2|].
  destruct o as [t|]; [|done]. revert H2. apply IH.
  destruct (right_gen r) as [g'|] eqn:Hgen; [|done].
  apply py_index_Ok_range in Hgen. unfold right_fuel in *. simpl. lia.
Qed.

(** [Row.learn] always terminates: on any row and any table, also
    ill-formed ones, each of its two [while] loops stops, by leaving the
    loop or by an exception. *)
Theorem learn_terminates (r : Row) (T : Cosets) (l : list Cosets) :
  learn r T ≠ Paused l.
Proof.
  unfold learn. case_decide as Hstop; [done|].
  intros [H|(r1 & l1 & l2 & _ & H & _)]%bind_Paused;
    [by apply advance_left_fuel in H|].
  apply bind_Paused in H as [H2|(r2 & l3 & l4 & _ & H2 & _)];
    [by apply advance_right_fuel in H2|].
  case_decide as Hclosed; [|done].
  apply bind_Paused in H2 as [H3|(g & l5 & l6 & _ & H3 & _)];
    [by apply lift_not_Paused in H3|].
  apply bind_Paused in H3 as [H4|(c' & l7 & l8 & _ & H4 & _)];
    [by apply mutate_not_Paused in H4 | done].
Qed.

Lemma scan_rows_terminates rows T l : scan_rows rows T ≠ Paused l.
Proof.
  revert l. induction rows as [|r rest IH]; intros l; [done|].
  cbn [scan_rows].
  intros [H|([[rest' c1] b] & l1 & l2 & _ & H & _)]%bind_Paused;
    [by apply IH in H|].
  apply bind_Paused in H as [H2|([[r' c2] b'] & l3 & l4 & _ & H2 & _)];
    [by apply learn_terminates in H2 | done].
Qed.

Lemma bind_Done {A B} (m : outcome A) (f : A → outcome B) b l :
  bind m f = Done b l →
  ∃ a l1 l2, m = Done a l1 ∧ f a = Done b l2 ∧ l = l1 ++ l2.
Proof.
  destruct m as [a l1|e l1|l1]; simpl; [|done..].
  destruct (f a) as [b' l2|e l2|l2] eqn:E; [|done..].
  intros [= <- <-]. by exists a, l1, l2.
Qed.

(** One pass over the rows only deletes: the rows it leaves are fewer
    exactly when it answers that something was learned. *)
Lemma scan_rows_length rows T rows' T' b l :
  scan_rows rows T = Done (rows', T', b) l →
  if b then length rows' < length rows else length rows' = length rows.
Proof.
  revert rows' T' b l. induction rows as [|r rest IH]; intros rows' T' b l.
  { by intros [= <- <- <-]. }
  cbn [scan_rows].
  intros ([[rest' c1] b1] & l1 & l2 & Hrest & H & _)%bind_Done.
  apply bind_Done in H as ([[r' c2] b2] & l3 & l4 & _ & H2 & _).
  injection H2 as <- <- <-. apply IH in Hrest. simpl.
  destruct b2, b1; simpl in *; lia.
Qed.

(** The [while True] loop of [solve] always terminates: started on a row
    list, it makes at most one pass more than there are rows. *)
Theorem learn_all_terminates (rows : list Row) (T : Cosets) (n : nat)
    (l : list Cosets) (Hn : length rows < n) :
  learn_all n rows T ≠ Paused l.
Proof.
  revert rows T l Hn. induction n as [|n IH]; intros rows T l Hn; [lia|].
  cbn [learn_all].
  intros [H|([[rows' T'] b] & l1 & l2 & Hscan & H & _)]%bind_Paused;
    [by apply scan_rows_terminates in H|].
  apply scan_rows_length in Hscan. destruct b; [|done].
  revert H. apply IH. lia.
Qed.

Lemma learn_all_terminates_witness :
  learn_all 2 [Row_init [0; 0] 0] (Cosets_init 1 ["a"]%char) ≠ Paused [].
Proof.
  apply (learn_all_terminates [Row_init [0; 0] 0] (Cosets_init 1 ["a"]%char) 2 []).
  simpl. lia.
Defined.

(** ** The table class *)

(** Writing and reading back.  Inside a well-formed table [set] succeeds;
    afterwards [get] reads the target at the position written and [rget]
    reads the coset at the mirrored position of the reverse array, every
    other entry of either array is as before, and the table is still
    well-formed. *)
Theorem set_then_get (T : Cosets) (c g t : nat) (HT : wf T)
    (Hc : c < len T) (Ht : t < len T) (Hg : g < n_gens T) :
  ∃ T', set T c g t = Ok T'
    ∧ get T' c g = Ok (Some t) ∧ rget T' g t = Ok (Some c)
    ∧ (∀ a b, (a, b) ≠ (c, g) → fwd T' a b = fwd T a b)
    ∧ (∀ a b, (a, b) ≠ (t, g) → rev T' a b = rev T a b)
    ∧ len T' = len T ∧ wf T'.
Proof.
  destruct (set_in_range T c g t HT Hc Ht Hg) as [T' Hset]. exists T'.
  pose proof (set_wf _ _ _ _ _ HT Hc Ht Hset) as HT'.
  pose proof (set_len _ _ _ _ _ Hset) as Hlen.
  pose proof (set_n_gens _ _ _ _ _ Hset) as Hn.
  split_and!; [done | | | | | done | done].
  - rewrite get_in_range by (done || lia).
    rewrite (set_fwd _ _ _ _ _ c g Hset). by rewrite decide_True.
  - rewrite rget_in_range by (done || lia).
    rewrite (set_rev _ _ _ _ _ t g Hset). by rewrite decide_True.
  - intros a b Hab. rewrite (set_fwd _ _ _ _ _ a b Hset).
    rewrite decide_False; [done|]. intros [-> ->]. done.
  - intros a b Hab. rewrite (set_rev _ _ _ _ _ a b Hset).
    rewrite decide_False; [done|]. intros [-> ->]. done.
Qed.

Lemma set_then_get_witness :
  ∃ T', set (Cosets_init 2 ["a"; "b"]%char) 0 1 0 = Ok T'
    ∧ get T' 0 1 = Ok (Some 0) ∧ rget T' 1 0 = Ok (Some 0)
    ∧ (∀ a b, (a, b) ≠ (0, 1) → fwd T' a b = fwd (Cosets_init 2 ["a"; "b"]%char) a b)
    ∧ (∀ a b, (a, b) ≠ (0, 1) → rev T' a b = rev (Cosets_init 2 ["a"; "b"]%char) a b)
    ∧ len T' = len (Cosets_init 2 ["a"; "b"]%char) ∧ wf T'.
Proof.
  apply (set_then_get (Cosets_init 2 ["a"; "b"]%char) 0 1 0).
  - apply wf_check_wf. apply (bool_decide_unpack _). by vm_compute.
  - vm_compute. lia.
  - vm_compute. lia.
  - vm_compute. lia.
Defined.

Lemma index_ge {A} (l : list A) i : length l ≤ i → index l i = Err IndexError.
Proof. intros. by apply index_Err. Qed.

(** Outside the table the three accessors raise [IndexError]: a coset
    number that is not below the number of cosets, or a generator index
    that is not below the number of generators.  [set] raises as soon as
    either of its two writes is out of range. *)
Theorem out_of_range_raises (T : Cosets) (c g t : nat) (HT : wf T) :
  (len T ≤ c ∨ n_gens T ≤ g → get T c g = Err IndexError)
  ∧ (len T ≤ t ∨ n_gens T ≤ g → rget T g t = Err IndexError)
  ∧ (len T ≤ c ∨ len T ≤ t ∨ n_gens T ≤ g → set T c g t = Err IndexError).
Proof.
  assert (∀ tab i j, width (n_gens T) tab → length tab ≤ i ∨ n_gens T ≤ j →
            rbind (index tab i) (λ row, index row j) = Err IndexError) as Hread.
  { intros tab i j Hw Hij. destruct (decide (length tab ≤ i)) as [Hi|Hi].
    - by rewrite index_ge.
    - destruct (index_lt tab i ltac:(lia)) as (row & -> & Hrow). simpl.
      apply index_ge. rewrite (width_lookup _ _ _ _ Hw Hrow). lia. }
  assert (∀ tab i j v, width (n_gens T) tab → length tab ≤ i ∨ n_gens T ≤ j →
            store tab i j v = Err IndexError) as Hstore.
  { intros tab i j v Hw Hij. unfold store.
    destruct (decide (length tab ≤ i)) as [Hi|Hi].
    - by rewrite index_ge.
    - destruct (index_lt tab i ltac:(lia)) as (row & -> & Hrow). simpl.
      rewrite decide_False; [done|].
      rewrite (width_lookup _ _ _ _ Hw Hrow). lia. }
  split_and!.
  - intros H. apply Hread; [exact (wf_width _ HT) | done].
  - intros H. apply Hread; [exact (wf_rwidth _ HT)|].
    by rewrite (wf_rows _ HT).
  - intros H. unfold set.
    destruct (store (cosets T) c g t) as [f|e] eqn:Hf; simpl.
    + rewrite Hstore; [done | exact (wf_rwidth _ HT) |].
      rewrite (wf_rows _ HT).
      apply store_Ok in Hf as (row & Hrow & Hj & _).
      pose proof (lookup_lt_Some _ _ _ Hrow).
      rewrite (width_lookup _ _ _ _ (wf_width _ HT) Hrow) in Hj.
      unfold len in H. lia.
    + unfold store in Hf.
      destruct (index (cosets T) c) as [row|e'] eqn:Hrow; simpl in Hf.
      * case_decide; [done|]. congruence.
      * apply index_Err in Hrow as [_ ->]. congruence.
Qed.

Lemma out_of_range_raises_witness :
  (len (Cosets_init 2 ["a"; "b"]%char) ≤ 1 ∨ n_gens (Cosets_init 2 ["a"; "b"]%char) ≤ 0 →
   get (Cosets_init 2 ["a"; "b"]%char) 1 0 = Err IndexError)
  ∧ (len (Cosets_init 2 ["a"; "b"]%char) ≤ 0 ∨ n_gens (Cosets_init 2 ["a"; "b"]%char) ≤ 0 →
     rget (Cosets_init 2 ["a"; "b"]%char) 0 0 = Err IndexError)
  ∧ (len (Cosets_init 2 ["a"; "b"]%char) ≤ 1 ∨ len (Cosets_init 2 ["a"; "b"]%char) ≤ 0
     ∨ n_gens (Cosets_init 2 ["a"; "b"]%char) ≤ 0 →
     set (Cosets_init 2 ["a"; "b"]%char) 1 0 0 = Err IndexError).
Proof.
  apply (out_of_range_raises (Cosets_init 2 ["a"; "b"]%char) 1 0 0).
  apply wf_check_wf. apply (bool_decide_unpack _). by vm_compute.
Defined.

(** The search of [add_coset] is row-major: everything before the entry
    it reports is defined. *)
Lemma first_undefined_before tab k i g :
  first_undefined tab k = Some (i, g) →
  ∀ a b row, tab !! a = Some row → b < length row →
    a < i - k ∨ (a = i - k ∧ b < g) → is_Some (entry tab a b).
Proof.
  revert k. induction tab as [|row0 tab IH]; intros k; simpl; [done|].
  destruct (first_none row0 0) as [g'|] eqn:E.
  - intros [= <- <-] a b row Ha Hb [Hlt|[-> Hbg]]; [lia|].
    rewrite Nat.sub_diag in *. simpl in Ha. injection Ha as <-.
    apply first_none_Some in E as (_ & _ & Hbefore).
    destruct (Hbefore b ltac:(lia)) as [v Hv].
    unfold entry. simpl. rewrite Hv. eauto.
  - intros Hrec a b row Ha Hb Hab.
    pose proof (first_undefined_Some _ _ _ _ Hrec) as (Hk & _).
    destruct a as [|a]; simpl in Ha.
    + injection Ha as <-. destruct (first_none_None _ _ E b Hb) as [v Hv].
      unfold entry. simpl. rewrite Hv. eauto.
    + change (entry (row0 :: tab) (S a) b) with (entry tab a b).
      apply (IH _ Hrec a b row Ha Hb). lia.
Qed.

(** [add_coset] on a well-formed table.  If every entry is defined it
    answers [False] and leaves the table alone.  Otherwise it answers
    [True]: with [(i, g)] the first undefined entry in row-major order
    (cosets ascending, then generators ascending), the new table has one
    more coset, numbered [len T], the forward entry [(i, g)] now holds it,
    the reverse entry [(len T, g)] holds [i], and nothing else changed. *)
Theorem add_coset_row_major (T : Cosets) (HT : wf T) :
  (saturated T → add_coset T = Ok (T, false))
  ∧ (¬ saturated T →
     ∃ i g T', add_coset T = Ok (T', true)
       ∧ i < len T ∧ g < n_gens T ∧ fwd T i g = None
       ∧ (∀ a b, a < len T → b < n_gens T → a < i ∨ (a = i ∧ b < g) →
            is_Some (fwd T a b))
       ∧ len T' = S (len T)
       ∧ fwd T' i g = Some (len T) ∧ rev T' (len T) g = Some i
       ∧ (∀ a b, (a, b) ≠ (i, g) → fwd T' a b = fwd T a b)
       ∧ (∀ a b, (a, b) ≠ (len T, g) → rev T' a b = rev T a b)
       ∧ wf T').
Proof.
  unfold add_coset. fold (len T).
  destruct (first_undefined (cosets T) 0) as [[i g]|] eqn:E.
  - pose proof (first_undefined_before _ _ _ _ E) as Hbefore.
    apply first_undefined_Some in E as (_ & He & row & Hrow & Hg).
    rewrite Nat.sub_0_r in *.
    assert (i < len T) as Hi by by eapply lookup_lt_Some.
    assert (g < n_gens T) as Hg'
      by by rewrite <- (width_lookup _ _ _ _ (wf_width _ HT) Hrow).
    split.
    { intros Hsat. destruct (Hsat i g Hi Hg') as [v Hv].
      unfold fwd in Hv. congruence. }
    intros _.
    assert (wf (add_row T)) as HT1 by by apply add_row_wf.
    destruct (set_in_range (add_row T) i g (len T)) as [T' HT'];
      [done | rewrite add_row_len; lia | rewrite add_row_len; lia | done |].
    exists i, g, T'. rewrite HT'. cbn [rbind].
    split_and!; try done.
    + intros a b Ha Hb Hab.
      destruct (lookup_lt_is_Some_2 (cosets T) a Ha) as [rowa Hrowa].
      apply (Hbefore a b rowa Hrowa); [|done].
      by rewrite (width_lookup _ _ _ _ (wf_width _ HT) Hrowa).
    + rewrite <- (add_row_len T). exact (set_len _ _ _ _ _ HT').
    + rewrite (set_fwd _ _ _ _ _ i g HT'). by rewrite decide_True.
    + rewrite (set_rev _ _ _ _ _ (len T) g HT').
      by rewrite decide_True.
    + intros a b Hab. rewrite (set_fwd _ _ _ _ _ a b HT').
      rewrite decide_False by (intros [-> ->]; done). apply add_row_fwd.
    + intros a b Hab. rewrite (set_rev _ _ _ _ _ a b HT').
      rewrite decide_False by (intros [-> ->]; done). apply add_row_rev.
    + apply (set_wf (add_row T) i g (len T) T'); try done.
      * rewrite add_row_len. lia.
      * rewrite add_row_len. lia.
  - split; [done|]. intros Hnot. destruct Hnot. intros c g Hc Hg.
    destruct (lookup_lt_is_Some_2 (cosets T) c Hc) as [row Hrow].
    eapply first_undefined_None; [done..|].
    by rewrite (width_lookup _ _ _ _ (wf_width _ HT) Hrow).
Qed.

Lemma add_coset_row_major_witness :
  let T := mkCosets ["a"; "b"]%char 2 [[Some 0; None]] [[Some 0; None]] in
  (saturated T → add_coset T = Ok (T, false))
  ∧ (¬ saturated T →
     ∃ i g T', add_coset T = Ok (T', true)
       ∧ i < len T ∧ g < n_gens T ∧ fwd T i g = None
       ∧ (∀ a b, a < len T → b < n_gens T → a < i ∨ (a = i ∧ b < g) →
            is_Some (fwd T a b))
       ∧ len T' = S (len T)
       ∧ fwd T' i g = Some (len T) ∧ rev T' (len T) g = Some i
       ∧ (∀ a b, (a, b) ≠ (i, g) → fwd T' a b = fwd T a b)
       ∧ (∀ a b, (a, b) ≠ (len T, g) → rev T' a b = rev T a b)
       ∧ wf T').
Proof.
  intros T. apply (add_coset_row_major T).
  apply wf_check_wf. apply (bool_decide_unpack _). by vm_compute.
Defined.

(** ** pairwise *)

(** [pairwise] lists the neighbours of a sequence: its [i]-th pair is the
    [i]-th element with the one after it, and there is one pair fewer
    than there are elements (none for the empty sequence). *)
Theorem pairwise_lookup {A} (l : list A) (i : nat) (x y : A) :
  (pairwise l !! i = Some (x, y) ↔ l !! i = Some x ∧ l !! S i = Some y)
  ∧ length (pairwise l) = length l - 1.
Proof.
  unfold pairwise. split.
  - rewrite lookup_zip_with_Some. rewrite lookup_tail. split.
    + intros (x' & y' & [= -> ->] & Hx & Hy). done.
    + intros [Hx Hy]. by exists x, y.
  - destruct l as [|a l]; [done|]. cbn [tail length].
    rewrite length_zip_with. cbn [length]. lia.
Qed.

(** ** The run as a whole *)

Lemma last_final T l : last (T :: l) = Some (final T l).
Proof. unfold final. rewrite last_cons. by destruct (last l). Qed.

(** Through every run of [solve] the table keeps the names and the
    number of generators it was built with, has at least one coset, and
    from one logged table to the next the number of cosets stays or grows
    by one; the table returned is the last one logged. *)
Theorem solve_table_shape (fuel : nat) (gens subgens : list ascii)
    (rels : list (list ascii)) :
  Forall (λ T, names T = gens ∧ n_gens T = length gens ∧ 1 ≤ len T)
    (log_of (solve fuel gens subgens rels))
  ∧ adjacent (λ T T', len T' = len T ∨ len T' = S (len T))
      (log_of (solve fuel gens subgens rels))
  ∧ (∀ T l, solve fuel gens subgens rels = Done T l →
       last l = Some T
       ∧ names T = gens ∧ n_gens T = length gens ∧ 1 ≤ len T).
Proof.
  assert (Forall (λ T, names T = gens ∧ n_gens T = length gens ∧ 1 ≤ len T)
            (log_of (solve fuel gens subgens rels))) as Hshape.
  { destruct (solve_log fuel gens subgens rels) as [->|(l' & -> & Hchain)];
      [constructor|].
    apply (chain_invariant _ (λ _ _, True)).
    - intros A B (Hnames & Hn & Hlen) Hstep _. split_and!.
      + by rewrite (step_names _ _ Hstep).
      + by rewrite (step_n_gens _ _ Hstep).
      + pose proof (step_len _ _ Hstep). lia.
    - done.
    - done.
    - by apply chain_adjacent. }
  split_and!; [done | |].
  - destruct (solve_log fuel gens subgens rels) as [->|(l' & -> & Hchain)];
      [done|].
    apply chain_adjacent; [|done]. intros A B Hstep.
    destruct (step_grows_by_edge _ _ Hstep) as [?|[? _]]; auto.
  - intros T l Hrun.
    pose proof (solve_run fuel gens subgens rels) as H. rewrite Hrun in H.
    destruct H as (l' & -> & _ & -> & _).
    assert (last (Cosets_init (length gens) gens :: l')
            = Some (final (Cosets_init (length gens) gens) l')) as Hlast
      by apply last_final.
    split; [done|]. rewrite Hrun in Hshape. simpl in Hshape.
    apply last_Some in Hlast as [l0 Hl0]. rewrite Hl0 in Hshape.
    apply Forall_app in Hshape as [_ Hshape].
    exact (proj1 (Forall_singleton _ _) Hshape).
Qed.

Lemma step_keeps_defined T T' :
  step T T' →
  (∀ c g, is_Some (fwd T c g) → is_Some (fwd T' c g))
  ∧ (∀ t g, is_Some (rev T t g) → is_Some (rev T' t g)).
Proof.
  intros (S & c & g & t & Hset & Hf & Hr)%step_as_set. split.
  - intros a b. rewrite (set_fwd _ _ _ _ _ a b Hset), Hf.
    case_decide; [eauto | done].
  - intros a b. rewrite (set_rev _ _ _ _ _ a b Hset), Hr.
    case_decide; [eauto | done].
Qed.

(** Nothing is ever undefined again: from one logged table to the next,
    an entry of the forward or of the reverse array that is defined stays
    defined (its value may be overwritten). *)
Theorem defined_entries_stay_defined (fuel : nat) (gens subgens : list ascii)
    (rels : list (list ascii)) :
  adjacent (λ T T',
      (∀ c g, is_Some (fwd T c g) → is_Some (fwd T' c g))
      ∧ (∀ t g, is_Some (rev T t g) → is_Some (rev T' t g)))
    (log_of (solve fuel gens subgens rels)).
Proof.
  destruct (solve_log fuel gens subgens rels) as [->|(l' & -> & Hchain)];
    [done|].
  apply chain_adjacent; [apply step_keeps_defined | done].
Qed.

(** The exceptions of [solve].  It raises [ValueError] only for a symbol
    of the relators or subgroup generators that is not in the alphabet,
    and then before the table is built; it raises [IndexError] only when
    some relator is empty, and then after the table is built; it raises
    nothing else. *)
Theorem solve_exceptions (fuel : nat) (gens subgens : list ascii)
    (rels : list (list ascii)) (e : exn) (l : list Cosets)
    (Hrun : solve fuel gens subgens rels = Raise e l) :
  (e = ValueError ∧ l = []
   ∧ ∃ s, s ∉ gens ∧ (s ∈ subgens ∨ ∃ w, w ∈ rels ∧ s ∈ w))
  ∨ (e = IndexError ∧ [] ∈ rels ∧ l ≠ []).
Proof.
  pose proof (solve_run fuel gens subgens rels) as H. rewrite Hrun in H.
  destruct H as [H|(-> & Hnil & l' & -> & _)]; [by left | by right].
Qed.

Lemma solve_exceptions_witness :
  (ValueError = ValueError ∧ @nil Cosets = []
   ∧ ∃ s, s ∉ ["a"; "b"]%char
          ∧ (s ∈ ["c"]%char ∨ ∃ w, w ∈ [["a"; "b"]]%char ∧ s ∈ w))
  ∨ (ValueError = IndexError ∧ [] ∈ [["a"; "b"]]%char ∧ @nil Cosets ≠ []).
Proof.
  apply (solve_exceptions 10 ["a"; "b"]%char ["c"]%char [["a"; "b"]]%char).
  by vm_compute.
Defined.

Lemma comprehend_all_Ok {A B} (f : A → result B) l :
  (∀ x, x ∈ l → ∃ y, f x = Ok y) → ∃ l', comprehend f l = Ok l'.
Proof.
  intros Hall. destruct (comprehend f l) as [l'|e] eqn:E; [eauto|].
  apply comprehend_Err in E as (x & Hx & Hfx).
  destruct (Hall x Hx) as [y Hy]. congruence.
Qed.

Lemma comprehend_elem {A B} (f : A → result B) l l' x :
  comprehend f l = Ok l' → x ∈ l → ∃ y, f x = Ok y ∧ y ∈ l'.
Proof.
  intros H%comprehend_Ok [i Hi]%list_elem_of_lookup_1.
  destruct (Forall2_lookup_l _ _ _ i x H Hi) as (y & Hy & Hfx).
  exists y. split; [done|]. by eapply list_elem_of_lookup_2.
Qed.

Lemma fix_base_not_Paused sg T l : fix_base sg T ≠ Paused l.
Proof.
  revert T l. induction sg as [|g sg IH]; intros T l; [done|].
  cbn [fix_base].
  intros [H|(T' & l1 & l2 & _ & H & _)]%bind_Paused;
    [by apply mutate_not_Paused in H | by apply IH in H].
Qed.

(** A pass over rows that include the untouched row of an empty relator
    raises [IndexError]. *)
Lemma scan_rows_blank T rows :
  wf T → Forall (row_ok True T) rows →
  (∃ r, r ∈ rows ∧ rel r = [] ∧ left r = 0%Z ∧ right r = 0%Z) →
  ∃ l, scan_rows rows T = Raise IndexError l.
Proof.
  intros HT. induction rows as [|r rest IH]; intros Hrows (r0 & Hin & Hblank).
  { by apply elem_of_nil in Hin. }
  apply Forall_cons in Hrows as [Hr Hrest]. cbn [scan_rows].
  pose proof (scan_rows_sound True T rest HT Hrest) as [Hchain Hpost].
  destruct (scan_rows rest T) as [[[rest' c1] b] l1|e l1|l1] eqn:Hscan.
  - apply elem_of_cons in Hin as [->|Hin].
    2:{ destruct IH as [l' Hl']; [done | by exists r0 | done]. }
    destruct r as [rl lf rt lc rtg]. simpl in Hblank.
    destruct Hblank as (-> & -> & ->). cbn [bind]. by exists (l1 ++ []).
  - destruct Hpost as [_ ->]. by exists l1.
  - by apply scan_rows_terminates in Hscan.
Qed.

Lemma solve_blank_relator fuel gens subgens rels :
  [] ∈ rels → (∀ s, s ∈ subgens → s ∈ gens) →
  (∀ w s, w ∈ rels → s ∈ w → s ∈ gens) →
  ∃ l, solve (S fuel) gens subgens rels = Raise IndexError l.
Proof.
  intros Hempty Hsub Hrels. rewrite solve_unfold.
  destruct (comprehend_all_Ok (comprehend (list_index gens)) rels)
    as [rels' Hrels'].
  { intros w Hw. apply comprehend_all_Ok. intros s Hs.
    apply list_index_elem. by eapply Hrels. }
  destruct (comprehend_all_Ok (list_index gens) subgens) as [sg Hsg].
  { intros s Hs. by apply list_index_elem, Hsub. }
  rewrite Hrels', Hsg. cbn zeta.
  destruct (mapped_rels _ _ _ Hrels') as [Hlt _].
  destruct (comprehend_elem _ _ _ _ Hrels' Hempty) as (rl & Hrl & Hin).
  injection Hrl as <-.
  set (T0 := Cosets_init (length gens) gens).
  assert (wf T0) as HT0 by apply Cosets_init_wf.
  unfold enumerate. fold T0.
  pose proof (fix_base_sound False T0 sg HT0 ltac:(unfold len; simpl; lia)
                (comprehend_index_lt _ _ _ Hsg)) as [Hchain Hpost].
  destruct (fix_base sg T0) as [T1 l1|e l1|l1] eqn:Hfix;
    [|by destruct Hpost | by apply fix_base_not_Paused in Hfix].
  simpl in Hchain, Hpost. subst T1.
  destruct (chain_wf _ _ HT0 Hchain) as [_ HT1].
  pose proof (chain_len _ _ Hchain) as Hlen.
  pose proof (chain_n_gens _ _ Hchain) as Hn.
  destruct (scan_rows_blank (final T0 l1) ((λ rl, Row_init rl 0) <$> rels') HT1)
    as [l2 Hscan].
  { apply Forall_fmap, Forall_forall. intros rl Hrl. simpl.
    apply Row_init_ok.
    - split; [|done]. rewrite Hn.
      exact (proj1 (Forall_forall _ _) Hlt rl Hrl).
    - assert (len T0 = 1) by done. lia. }
  { exists (Row_init [] 0). split; [|done].
    apply list_elem_of_fmap. by exists []. }
  cbn [bind].
  destruct ((λ rl, Row_init rl 0) <$> rels') as [|r0 rows0] eqn:Hrows.
  { by destruct rels'; [apply elem_of_nil in Hin|]. }
  cbn [solve_loop learn_all]. rewrite Hscan. cbn [bind]. eauto.
Qed.

(** An empty relator makes [solve] raise [IndexError]: when every symbol
    is in the alphabet, the first pass over the rows subscripts the empty
    relator. *)
Theorem empty_relator_raises (fuel : nat) (gens subgens : list ascii)
    (rels : list (list ascii))
    (Hempty : [] ∈ rels)
    (Hsub : ∀ s, s ∈ subgens → s ∈ gens)
    (Hrels : ∀ w s, w ∈ rels → s ∈ w → s ∈ gens) :
  ∃ l, solve (S fuel) gens subgens rels = Raise IndexError l.
Proof. by apply solve_blank_relator. Qed.

Lemma empty_relator_raises_witness :
  ∃ l, solve 1 ["a"; "b"]%char ["a"]%char [["a"; "b"]; []]%char
       = Raise IndexError l.
Proof.
  apply (empty_relator_raises 0 ["a"; "b"]%char ["a"]%char [["a"; "b"]; []]%char).
  - apply (bool_decide_unpack _). by vm_compute.
  - intros s Hs. apply list_elem_of_singleton in Hs as ->.
    apply (bool_decide_unpack _). by vm_compute.
  - intros w s Hw Hs. apply elem_of_cons in Hw as [->|Hw].
    + exact Hs.
    + apply list_elem_of_singleton in Hw as ->. by apply elem_of_nil in Hs.
Defined.

(** ** The base coset *)

Lemma fix_base_fwd sg T T1 l g :
  fix_base sg T = Done T1 l →
  g ∈ sg ∨ fwd T 0 g = Some 0 → fwd T1 0 g = Some 0.
Proof.
  revert T l. induction sg as [|g0 sg IH]; intros T l; cbn [fix_base].
  { intros [= <- <-] [Hin|H]; [by apply elem_of_nil in Hin | done]. }
  intros (T' & l1 & l2 & Hset & Hrest & _)%bind_Done Hg.
  apply (IH _ _ Hrest).
  destruct (set T 0 g0 0) as [T''|e] eqn:E; [|done].
  injection Hset as <- _.
  destruct Hg as [[->|Hin]%elem_of_cons|H].
  - right. rewrite (set_fwd _ _ _ _ _ 0 g0 E). by rewrite decide_True.
  - by left.
  - right. rewrite (set_fwd _ _ _ _ _ 0 g E). by case_decide.
Qed.

(** ** Runs without overwrites *)

Section Stable.
Implicit Types (T : Cosets) (l : list Cosets) (r : Row).

Lemma segment_trans {A} (l : list A) (i j k : Z) :
  (0 ≤ i ≤ j)%Z → (j ≤ k)%Z →
  segment l i k = segment l i j ++ segment l j k.
Proof.
  intros Hij Hjk. unfold segment.
  replace (Z.to_nat (k - i)) with (Z.to_nat (j - i) + Z.to_nat (k - j)) by lia.
  rewrite <- take_take_drop. f_equal. rewrite drop_drop.
  by replace (Z.to_nat i + Z.to_nat (j - i)) with (Z.to_nat j) by lia.
Qed.

Lemma segment_full {A} (l : list A) : segment l 0 (Z.of_nat (length l)) = l.
Proof.
  unfold segment. simpl. rewrite drop_0, Z.sub_0_r, Nat2Z.id.
  apply firstn_all.
Qed.

Lemma keeps_refl tab : keeps tab tab.
Proof. by intros i j v. Qed.

Lemma keeps_trans tab1 tab2 tab3 :
  keeps tab1 tab2 → keeps tab2 tab3 → keeps tab1 tab3.
Proof. intros H1 H2 i j v H. by apply H2, H1. Qed.

Lemma stable_from_cons T T' l :
  stable_from T (T' :: l) ↔
  (keeps (cosets T) (cosets T') ∧ keeps (rcosets T) (rcosets T'))
  ∧ stable_from T' l.
Proof. done. Qed.

Lemma stable_from_app T l1 l2 :
  stable_from T (l1 ++ l2) ↔ stable_from T l1 ∧ stable_from (final T l1) l2.
Proof.
  revert T. induction l1 as [|T' l1 IH]; intros T.
  - simpl. rewrite final_nil. unfold stable_from at 2. simpl. naive_solver.
  - rewrite <- app_comm_cons, !stable_from_cons, final_cons, IH. naive_solver.
Qed.

Lemma stable_keeps T l :
  stable_from T l →
  keeps (cosets T) (cosets (final T l))
  ∧ keeps (rcosets T) (rcosets (final T l)).
Proof.
  revert T. induction l as [|T' l IH]; intros T.
  { intros _. rewrite final_nil. split; apply keeps_refl. }
  intros [[Hf Hr] [Hf' Hr']%IH]%stable_from_cons. rewrite final_cons.
  split; by eapply keeps_trans.
Qed.

Lemma stable_forward l T :
  forward_stable (T :: l) → reverse_stable (T :: l) → stable_from T l.
Proof. apply adjacent_and. Qed.

Lemma chain_bisymmetric T l :
  bisymmetric T → chain T l → stable_from T l → bisymmetric (final T l).
Proof.
  intros Hsym Hchain Hst.
  pose proof (chain_invariant bisymmetric _ T l step_bisymmetric Hsym Hchain Hst)
    as Hall.
  pose proof (last_final T l) as Hlast.
  apply last_Some in Hlast as [l0 Hl0]. rewrite Hl0 in Hall.
  apply Forall_app in Hall as [_ Hall].
  exact (proj1 (Forall_singleton _ _) Hall).
Qed.

(** In a symmetric table, undoing a word backwards from [c] and applying
    it forwards to the coset so found are the same walk. *)
Lemma walk_rev_fwd T w c t :
  bisymmetric T → walk (rcosets T) c (reverse w) = Some t →
  walk (cosets T) t w = Some c.
Proof.
  intros Hsym. revert c t. induction w as [|g w IH] using rev_ind; intros c t.
  { simpl. by intros [= ->]. }
  rewrite reverse_app. simpl.
  destruct (entry (rcosets T) c g) as [c1|] eqn:Hg; [|done].
  intros Hw%IH. eapply walk_snoc; [done|].
  by apply (Hsym c1 g c).
Qed.

Lemma anchored_keeps T T' c r :
  anchored T c r →
  keeps (cosets T) (cosets T') → keeps (rcosets T) (rcosets T') →
  len T ≤ len T' → n_gens T' = n_gens T → anchored T' c r.
Proof.
  intros [Hwf Hwin Hl Hr] Hkf Hkr Hlen Hn. split.
  - by eapply row_wf_grow.
  - done.
  - by eapply walk_keeps.
  - by eapply walk_keeps.
Qed.

Lemma anchored_chain T l c r :
  anchored T c r → chain T l → stable_from T l → anchored (final T l) c r.
Proof.
  intros Ha Hchain [Hkf Hkr]%stable_keeps.
  eapply anchored_keeps; [done.. | by apply chain_len | by apply chain_n_gens].
Qed.

Lemma pending_chain T l r :
  pending T r → chain T l → stable_from T l → pending (final T l) r.
Proof.
  intros (c & Hc & Ha) Hchain Hst. exists c. split.
  - pose proof (chain_len _ _ Hchain). lia.
  - by apply anchored_chain.
Qed.

Lemma Row_init_anchored T rl c :
  2 ≤ length rl → Forall (λ g, g < n_gens T) rl → c < len T →
  anchored T c (Row_init rl c).
Proof.
  intros Hlen Hg Hc.
  split; unfold Row_init; cbn [rel left right left_coset right_target].
  - apply Row_init_wf; [intros ->; simpl in Hlen; lia | done..].
  - lia.
  - by rewrite segment_empty.
  - by rewrite segment_empty.
Qed.

(** One call of [learn] on a row of the list.  Either it learns, and
    then the relator of the row leads from the row's coset back to it in
    the new table; or it does not, the table is untouched and the row it
    leaves is anchored as before. *)
Lemma learn_anchored T c r r' T' (b : bool) l :
  wf T → bisymmetric T → anchored T c r →
  learn r T = Done (r', T', b) l → stable_from T l →
  if b then walk (cosets T') c (rel r) = Some c
  else T' = T ∧ l = [] ∧ rel r' = rel r ∧ anchored T c r'.
Proof.
  intros HT Hsym [Hwf Hwin Hal Har] Hrun Hst.
  destruct (learn_run T r HT Hwf) as [_ Hmore].
  destruct (Hmore ltac:(lia))
    as (r1 & Hr1 & Hrel & Hwl & Hwr & Hwalkl & Hwalkr & _ & Hyes & Hno).
  pose proof (rw_window _ _ Hwf) as Hw.
  assert (walk (cosets T) c (segment (rel r) 0 (left r1)) = Some (left_coset r1))
    as Hl1.
  { rewrite (segment_trans _ 0 (left r)) by lia. by rewrite walk_app, Hal. }
  assert (walk (rcosets T) c
            (reverse (segment (rel r) (right r1) (Z.of_nat (length (rel r)))))
          = Some (right_target r1)) as Hr1'.
  { rewrite (segment_trans _ (right r1) (right r)) by lia.
    by rewrite reverse_app, walk_app, Har. }
  destruct (decide (left r1 + 1 = right r1)%Z) as [Hclosed|Hopen].
  - destruct (Hyes Hclosed) as (g & T1 & Hg & Hset & Hlearn).
    rewrite Hlearn in Hrun. injection Hrun as <- <- <- <-.
    apply stable_from_cons in Hst as [[Hkf Hkr] _].
    assert (bisymmetric T1) as Hsym1.
    { apply (step_bisymmetric T T1 Hsym); [|done].
      apply (step_set T T1 (left_coset r1) g (right_target r1));
        [apply Hr1 | apply Hr1 | | done].
      rewrite <- Hrel in Hg.
      exact (Forall_lookup_1 _ _ _ _ (rw_gens _ _ Hr1) Hg). }
    rewrite <- (segment_full (rel r)).
    rewrite (segment_trans _ 0 (left r1)) by lia.
    rewrite (segment_cons _ (left r1) _ g) by (done || lia).
    rewrite walk_app, (walk_keeps _ _ _ _ _ Hkf Hl1). simpl.
    change (entry (cosets T1) (left_coset r1) g) with (fwd T1 (left_coset r1) g).
    rewrite (set_fwd _ _ _ _ _ (left_coset r1) g Hset), decide_True by done.
    apply walk_rev_fwd; [done|]. rewrite Hclosed.
    by apply (walk_keeps _ _ _ _ _ Hkr).
  - destruct (Hno Hopen) as (_ & _ & Hlearn).
    rewrite Hlearn in Hrun. injection Hrun as <- <- <- <-.
    split_and!; [done..|]. split; [done | lia | |].
    + by rewrite Hrel.
    + by rewrite Hrel.
Qed.

(** In a saturated table every row of the list learns. *)
Lemma learn_saturated T c r r' T' (b : bool) l :
  wf T → saturated T → anchored T c r →
  learn r T = Done (r', T', b) l → b = true.
Proof.
  intros HT Hsat [Hwf Hwin _ _] Hrun.
  destruct (learn_run T r HT Hwf) as [_ Hmore].
  destruct (Hmore ltac:(lia))
    as (r1 & Hr1 & Hrel & _ & _ & _ & _ & _ & Hyes & Hno).
  destruct (decide (left r1 + 1 = right r1)%Z) as [Hclosed|Hopen].
  - destruct (Hyes Hclosed) as (g & T1 & _ & _ & Hlearn). congruence.
  - destruct (Hno Hopen) as ((g & Hg & Hnone) & _). exfalso.
    rewrite <- Hrel in Hg.
    pose proof (Forall_lookup_1 _ _ _ _ (rw_gens _ _ Hr1) Hg) as Hgn.
    destruct (Hsat (left_coset r1) g (rw_left _ _ Hr1) Hgn) as [v Hv].
    congruence.
Qed.
End Stable.

(** ** The loops of [solve] in a run without overwrites *)

Section Consistent.
Implicit Types (T : Cosets) (l : list Cosets) (r : Row) (rows : list Row).

Lemma learn_len T r r' T' (b : bool) l :
  wf T → row_wf T r → learn r T = Done (r', T', b) l →
  len T' = len T ∧ chain T l ∧ T' = final T l.
Proof.
  intros HT Hr Hrun.
  pose proof (learn_sound False T r HT (or_introl Hr)) as [Hchain Hq].
  rewrite Hrun in Hchain, Hq. simpl in Hchain, Hq. destruct Hq as [Hq _].
  split_and!; [|done|done].
  destruct (learn_run T r HT Hr) as [Hone Hmore].
  destruct (decide (left r + 1 = right r)%Z) as [Hstop|Hstop].
  { rewrite (Hone Hstop) in Hrun. by injection Hrun as <- <- <- <-. }
  destruct (Hmore Hstop) as (r1 & Hr1 & _ & _ & _ & _ & _ & _ & Hyes & Hno).
  destruct (decide (left r1 + 1 = right r1)%Z) as [Hclosed|Hopen].
  - destruct (Hyes Hclosed) as (g & T1 & _ & Hset & Hlearn).
    rewrite Hlearn in Hrun. injection Hrun as <- <- <- <-.
    exact (set_len _ _ _ _ _ Hset).
  - destruct (Hno Hopen) as (_ & _ & Hlearn).
    rewrite Hlearn in Hrun. by injection Hrun as <- <- <- <-.
Qed.

Lemma covers_chain T l rows c rl :
  covers T rows c rl → chain T l → stable_from T l →
  covers (final T l) rows c rl.
Proof.
  intros [Hw|(r & Hin & Hrel & Ha)] Hchain Hst.
  - left. destruct (stable_keeps _ _ Hst) as [Hk _]. by eapply walk_keeps.
  - right. exists r. split_and!; [done..|]. by apply anchored_chain.
Qed.

Lemma covers_mono T rows rows' c rl :
  covers T rows c rl → (∀ r, r ∈ rows → r ∈ rows') → covers T rows' c rl.
Proof.
  intros [Hw|(r & Hin & Hrel & Ha)] Hsub; [by left|].
  right. exists r. auto.
Qed.

(** One pass over the rows. *)
Lemma scan_rows_stable T rows rows' T' (b : bool) l :
  wf T → bisymmetric T → Forall (pending T) rows →
  scan_rows rows T = Done (rows', T', b) l → stable_from T l →
  chain T l ∧ T' = final T l ∧ len T' = len T
  ∧ Forall (pending T') rows'
  ∧ (∀ c rl, covers T rows c rl → covers T' rows' c rl)
  ∧ (b = false → T' = T ∧ (saturated T → rows = [])).
Proof.
  intros HT Hsym. revert rows' T' b l.
  induction rows as [|r rest IH]; intros rows' T' b l Hrows Hrun Hst.
  { injection Hrun as <- <- <- <-. by split_and!. }
  apply Forall_cons in Hrows as [Hr Hrest]. cbn [scan_rows] in Hrun.
  apply bind_Done in Hrun as ([[rest' c1] b1] & l1 & l' & Hscan & Hrun & ->).
  apply bind_Done in Hrun as ([[r' c2] b2] & l2 & l3 & Hlearn & Hret & ->).
  injection Hret as <- <- <- <-. rewrite app_nil_r in *.
  apply stable_from_app in Hst as [Hst1 Hst2].
  destruct (IH _ _ _ _ Hrest Hscan Hst1)
    as (Hch1 & Hc1 & Hlen1 & Hpend1 & Hcov1 & Hb1).
  rewrite <- Hc1 in Hst2.
  assert (wf c1) as HT1 by (rewrite Hc1; by apply chain_wf).
  assert (bisymmetric c1) as Hsym1 by (rewrite Hc1; by apply chain_bisymmetric).
  assert (pending c1 r) as (c0 & Hc0 & Ha0)
    by (rewrite Hc1; by apply pending_chain).
  destruct (learn_len _ _ _ _ _ _ HT1 (an_wf _ _ _ Ha0) Hlearn)
    as (Hlen2 & Hch2 & Hc2).
  assert (∀ c, anchored c1 c r →
            if b2 then walk (cosets c2) c (rel r) = Some c
            else c2 = c1 ∧ l2 = [] ∧ rel r' = rel r ∧ anchored c1 c r')
    as Hlearned.
  { intros c Ha. exact (learn_anchored _ _ _ _ _ _ _ HT1 Hsym1 Ha Hlearn Hst2). }
  split_and!.
  - apply chain_app. split; [done | by rewrite <- Hc1].
  - by rewrite final_app, <- Hc1.
  - congruence.
  - assert (Forall (pending c2) rest') as Hrest2.
    { eapply Forall_impl; [exact Hpend1|]. intros r0 Hr0. simpl.
      rewrite Hc2. by apply pending_chain. }
    destruct b2; [done|]. constructor; [|done].
    destruct (Hlearned c0 Ha0) as (-> & _ & _ & Ha'). by exists c0.
  - intros c rl [Hw|(r0 & Hin & Hrel & Ha)].
    + left. rewrite Hc2, Hc1, <- final_app.
      assert (stable_from T (l1 ++ l2)) as Hst
        by (apply stable_from_app; split; [done | by rewrite <- Hc1]).
      destruct (stable_keeps _ _ Hst) as [Hk _]. by eapply walk_keeps.
    + apply elem_of_cons in Hin as [->|Hin].
      * assert (anchored c1 c r) as Ha1 by (rewrite Hc1; by apply anchored_chain).
        specialize (Hlearned c Ha1). destruct b2.
        -- left. by rewrite <- Hrel.
        -- destruct Hlearned as (-> & _ & Hrel' & Ha'). right. exists r'.
           split_and!; [by left | congruence | done].
      * assert (covers c1 rest' c rl) as Hcov.
        { apply Hcov1. right. by exists r0. }
        rewrite Hc2. apply (covers_chain c1 l2) in Hcov; [|done..].
        eapply covers_mono; [done|]. intros r1 Hr1.
        destruct b2; [done | by right].
  - intros [-> ->]%orb_false_elim. destruct (Hb1 eq_refl) as [-> Hnil].
    destruct (Hlearned c0 Ha0) as (-> & _). split; [done|].
    intros Hsat. exfalso. by pose proof (learn_saturated _ _ _ _ _ _ _ HT1 Hsat Ha0 Hlearn).
Qed.

(** The [while True] loop. *)
Lemma learn_all_stable n T rows rows' T' l :
  wf T → bisymmetric T → Forall (pending T) rows →
  learn_all n rows T = Done (rows', T') l → stable_from T l →
  chain T l ∧ T' = final T l ∧ len T' = len T
  ∧ Forall (pending T') rows'
  ∧ (∀ c rl, covers T rows c rl → covers T' rows' c rl)
  ∧ (saturated T' → rows' = []).
Proof.
  revert T rows l. induction n as [|n IH]; intros T rows l HT Hsym Hrows Hrun Hst.
  { done. }
  cbn [learn_all] in Hrun.
  apply bind_Done in Hrun as ([[rows1 c1] b] & l1 & l2 & Hscan & Hrun & ->).
  apply stable_from_app in Hst as [Hst1 Hst2].
  destruct (scan_rows_stable _ _ _ _ _ _ HT Hsym Hrows Hscan Hst1)
    as (Hch1 & Hc1 & Hlen1 & Hpend1 & Hcov1 & Hb1).
  rewrite <- Hc1 in Hst2.
  destruct b.
  - assert (wf c1) as HT1 by (rewrite Hc1; by apply chain_wf).
    assert (bisymmetric c1) as Hsym1
      by (rewrite Hc1; by apply chain_bisymmetric).
    destruct (IH _ _ _ HT1 Hsym1 Hpend1 Hrun Hst2)
      as (Hch2 & Hc2 & Hlen2 & Hpend2 & Hcov2 & Hsat2).
    split_and!; [| | congruence | done | auto | done].
    + apply chain_app. split; [done | by rewrite <- Hc1].
    + by rewrite final_app, <- Hc1.
  - injection Hrun as <- <- <-. rewrite app_nil_r.
    split_and!; [done..|]. destruct (Hb1 eq_refl) as [-> Hnil].
    intros Hsat. pose proof (scan_rows_length _ _ _ _ _ _ Hscan) as Hlen.
    simpl in Hlen. rewrite (Hnil Hsat) in Hlen. by destruct rows1.
Qed.

(** The [while rows] loop: in the table it returns, every relator leads
    from every coset back to that coset. *)
Lemma solve_loop_stable fuel rels T rows Tf l :
  wf T → bisymmetric T → Forall (pending T) rows → covered T rels rows →
  Forall (λ rl, 2 ≤ length rl ∧ Forall (λ g, g < n_gens T) rl) rels →
  solve_loop fuel rels rows T = Done Tf l → stable_from T l →
  ∀ c rl, c < len Tf → rl ∈ rels → walk (cosets Tf) c rl = Some c.
Proof.
  revert T rows l.
  induction fuel as [|fuel IH]; intros T rows l HT Hsym Hrows Hcov Hrels Hrun Hst.
  { destruct rows; [|done]. injection Hrun as <- <-. intros c rl Hc Hrl.
    destruct (Hcov c rl Hc Hrl) as [Hw|(r & Hin & _)]; [done|].
    by apply elem_of_nil in Hin. }
  destruct rows as [|r0 rows0].
  { injection Hrun as <- <-. intros c rl Hc Hrl.
    destruct (Hcov c rl Hc Hrl) as [Hw|(r & Hin & _)]; [done|].
    by apply elem_of_nil in Hin. }
  cbn [solve_loop] in Hrun. set (rows := r0 :: rows0) in *. clearbody rows.
  apply bind_Done in Hrun as ([rows1 c1] & l1 & l' & Hlearn & Hrun & ->).
  apply bind_Done in Hrun as ([c2 added] & l2 & l3 & Hadd & Hrun & ->).
  apply stable_from_app in Hst as [Hst1 Hst].
  destruct (learn_all_stable _ _ _ _ _ _ HT Hsym Hrows Hlearn Hst1)
    as (Hch1 & Hc1 & Hlen1 & Hpend1 & Hcov1 & Hsat1).
  rewrite <- Hc1 in Hst.
  apply stable_from_app in Hst as [Hst2 Hst3].
  assert (wf c1) as HT1 by (rewrite Hc1; by apply chain_wf).
  assert (bisymmetric c1) as Hsym1 by (rewrite Hc1; by apply chain_bisymmetric).
  assert (n_gens c1 = n_gens T) as Hn1 by (rewrite Hc1; by apply chain_n_gens).
  destruct (add_coset_spec c1 HT1)
    as [[Hsame Hsat]|(i & g & T2 & Hnew & Hi & Hg & Hnone & Hset)].
  - rewrite Hsame in Hadd. injection Hadd as <- <- <-.
    injection Hrun as <- <-. intros c rl Hc Hrl.
    assert (covers c1 rows1 c rl) as [Hw|(r & Hin & _)].
    { apply Hcov1, Hcov; [lia | done]. }
    + done.
    + rewrite (Hsat1 Hsat) in Hin. by apply elem_of_nil in Hin.
  - rewrite Hnew in Hadd. injection Hadd as <- <- <-.
    rewrite final_singleton in Hst3.
    assert (step c1 T2) as Hstep by exact (step_add _ _ _ _ Hi Hg Hnone Hset).
    assert (chain c1 [T2]) as Hch2 by (by split).
    pose proof (step_wf _ _ HT1 Hstep) as HT2.
    assert (bisymmetric T2) as Hsym2
      by exact (chain_bisymmetric c1 [T2] Hsym1 Hch2 Hst2).
    assert (len T2 = S (len c1)) as Hlen2.
    { rewrite (set_len _ _ _ _ _ Hset). apply add_row_len. }
    assert (n_gens T2 = n_gens T) as Hn2.
    { rewrite <- Hn1. exact (step_n_gens _ _ Hstep). }
    assert (∀ rl, rl ∈ rels → anchored T2 (len c1) (Row_init rl (len c1)))
      as Hfresh.
    { intros rl Hrl.
      destruct (proj1 (Forall_forall _ _) Hrels rl Hrl) as [Hlong Hgens].
      apply Row_init_anchored; [done | by rewrite Hn2 | lia]. }
    eapply (IH T2 _ l3); [done | done | | | by rewrite Hn2 | exact Hrun | done].
    + apply Forall_app. split.
      * eapply Forall_impl; [exact Hpend1|]. intros r Hr. simpl.
        exact (pending_chain c1 [T2] r Hr Hch2 Hst2).
      * apply Forall_fmap, Forall_forall. intros rl Hrl. simpl.
        exists (len c1). split; [lia | by apply Hfresh].
    + intros c rl Hc Hrl. destruct (decide (c = len c1)) as [->|Hne].
      * right. exists (Row_init rl (len c1)). split_and!; [|done|by apply Hfresh].
        apply elem_of_app. right. apply list_elem_of_fmap. by exists rl.
      * assert (covers c1 rows1 c rl) as Hcov2.
        { apply Hcov1, Hcov; [lia | done]. }
        apply (covers_chain c1 [T2]) in Hcov2; [|done..].
        eapply covers_mono; [exact Hcov2|]. intros r Hr.
        apply elem_of_app. by left.
Qed.
End Consistent.

(** ** What the returned table says about the presentation *)

Lemma fix_base_len sg T T1 l : fix_base sg T = Done T1 l → len T1 = len T.
Proof.
  revert T l. induction sg as [|g sg IH]; intros T l; cbn [fix_base].
  { by intros [= <- <-]. }
  intros (T' & l1 & l2 & Hset & Hrest & _)%bind_Done.
  destruct (set T 0 g 0) as [T''|e] eqn:E; [|done].
  injection Hset as <- _. rewrite (IH _ _ Hrest). exact (set_len _ _ _ _ _ E).
Qed.

Lemma adjacent_app_final (R : Cosets → Cosets → Prop) T l1 l2 :
  adjacent R (T :: l1 ++ l2) → adjacent R (final T l1 :: l2).
Proof.
  revert T. induction l1 as [|T' l1 IH]; intros T; [done|].
  rewrite <- app_comm_cons, final_cons. intros [_ H]. by apply IH.
Qed.

Lemma forward_keeps T l :
  forward_stable (T :: l) → keeps (cosets T) (cosets (final T l)).
Proof.
  revert T. induction l as [|T' l IH]; intros T.
  { intros _. rewrite final_nil. apply keeps_refl. }
  intros [Hk Hrest%IH]. rewrite final_cons. by eapply keeps_trans.
Qed.

(** The relators of a presentation hold in the table of a run without
    overwrites. *)
Lemma enumerate_stable fuel n nms sg rels' T l :
  Forall (λ g, g < n) sg →
  Forall (λ rl, 2 ≤ length rl ∧ Forall (λ g, g < n) rl) rels' →
  enumerate fuel n nms sg rels' = Done T l →
  stable_from (Cosets_init n nms) l →
  ∀ c rl, c < len T → rl ∈ rels' → walk (cosets T) c rl = Some c.
Proof.
  intros Hsg Hrels Hrun Hst. unfold enumerate in Hrun.
  set (T0 := Cosets_init n nms) in *.
  assert (wf T0) as HT0 by apply Cosets_init_wf.
  assert (len T0 = 1) as Hlen0 by done.
  assert (n_gens T0 = n) as Hn0 by done.
  apply bind_Done in Hrun as (T1 & l1 & l2 & Hfix & Hloop & ->).
  apply stable_from_app in Hst as [Hst1 Hst2].
  pose proof (fix_base_sound False T0 sg HT0 ltac:(lia) ltac:(by rewrite Hn0))
    as [Hch1 Hq].
  rewrite Hfix in Hch1, Hq. simpl in Hch1, Hq. rewrite <- Hq in Hst2.
  assert (wf T1) as HT1 by (rewrite Hq; by apply chain_wf).
  assert (bisymmetric T1) as Hsym1.
  { rewrite Hq. apply chain_bisymmetric; [|done..].
    apply Cosets_init_bisymmetric. }
  assert (n_gens T1 = n) as Hn1 by (rewrite Hq, chain_n_gens; done).
  pose proof (fix_base_len _ _ _ _ Hfix) as Hlen1. rewrite Hlen0 in Hlen1.
  assert (∀ rl, rl ∈ rels' → anchored T1 0 (Row_init rl 0)) as Hfresh.
  { intros rl Hrl.
    destruct (proj1 (Forall_forall _ _) Hrels rl Hrl) as [Hlong Hgens].
    apply Row_init_anchored; [done | by rewrite Hn1 | lia]. }
  eapply (solve_loop_stable fuel rels' T1 _ T l2);
    [done | done | | | by rewrite Hn1 | exact Hloop | done].
  - apply Forall_fmap, Forall_forall. intros rl Hrl. simpl.
    exists 0. split; [lia | by apply Hfresh].
  - intros c rl Hc Hrl. assert (c = 0) as -> by lia.
    right. exists (Row_init rl 0). split_and!; [|done|by apply Hfresh].
    apply list_elem_of_fmap. by exists rl.
Qed.

(** In a run of [solve] that overwrites no defined entry, of a
    presentation whose relators all have two letters or more, the table
    returned satisfies every relator at every coset: following the
    letters of a relator through the forward array, from any coset, leads
    back to that coset. *)
Theorem relators_hold (fuel : nat) (gens subgens : list ascii)
    (rels : list (list ascii)) (T : Cosets) (l : list Cosets)
    (Hlong : Forall (λ w, 2 ≤ length w) rels)
    (Hrun : solve fuel gens subgens rels = Done T l)
    (Hfwd : forward_stable l) (Hrev : reverse_stable l) :
  ∀ w c, w ∈ rels → c < len T → trace gens T c w = Some c.
Proof.
  intros w c Hw Hc. rewrite solve_unfold in Hrun.
  destruct (comprehend (comprehend (list_index gens)) rels)
    as [rels'|e] eqn:Hrels; [|done].
  destruct (comprehend (list_index gens) subgens) as [sg|e] eqn:Hsg; [|done].
  cbn zeta in Hrun.
  destruct (enumerate fuel (length gens) gens sg rels') as [T' l'|e l'|l']
    eqn:Hen; [|done..].
  injection Hrun as -> <-.
  destruct (comprehend_elem _ _ _ _ Hrels Hw) as (w' & Hw' & Hin).
  unfold trace. rewrite Hw'.
  eapply (enumerate_stable _ _ _ _ _ _ _ (comprehend_index_lt _ _ _ Hsg));
    [| exact Hen | by apply stable_forward | done | done].
  destruct (mapped_rels gens rels rels' Hrels) as [Hlt _].
  apply comprehend_Ok in Hrels. apply Forall_forall. intros rl Hrl. split.
  - apply list_elem_of_lookup_1 in Hrl as [i Hi].
    destruct (Forall2_lookup_r _ _ _ _ _ Hrels Hi) as (w0 & Hw0 & Hmap).
    apply comprehend_Ok, Forall2_length in Hmap. rewrite <- Hmap.
    exact (Forall_lookup_1 _ _ _ _ Hlong Hw0).
  - exact (proj1 (Forall_forall _ _) Hlt rl Hrl).
Qed.

Lemma relators_hold_witness :
  trace ["a"; "b"]%char dihedral_table 3 ["b"; "b"]%char = Some 3.
Proof.
  apply (relators_hold 5 ["a"; "b"]%char ["a"]%char dihedral_rels
           dihedral_table dihedral_log).
  - apply (bool_decide_unpack _). by vm_compute.
  - by vm_compute.
  - apply forward_stable_check. by vm_compute.
  - apply reverse_stable_check. by vm_compute.
  - apply (bool_decide_unpack _). by vm_compute.
  - vm_compute. lia.
Defined.

(** In a run of [solve] that overwrites no defined forward entry, every
    subgroup generator fixes the base coset in the table returned: its
    forward entry at coset 0 is 0. *)
Theorem subgroup_generators_fix_base (fuel : nat) (gens subgens : list ascii)
    (rels : list (list ascii)) (T : Cosets) (l : list Cosets)
    (Hrun : solve fuel gens subgens rels = Done T l)
    (Hfwd : forward_stable l) :
  ∀ s, s ∈ subgens → trace gens T 0 [s] = Some 0.
Proof.
  intros s Hs. rewrite solve_unfold in Hrun.
  destruct (comprehend (comprehend (list_index gens)) rels)
    as [rels'|e] eqn:Hrels; [|done].
  destruct (comprehend (list_index gens) subgens) as [sg|e] eqn:Hsg; [|done].
  cbn zeta in Hrun.
  destruct (enumerate fuel (length gens) gens sg rels') as [T' l'|e l'|l']
    eqn:Hen; [|done..].
  injection Hrun as -> <-.
  destruct (mapped_rels gens rels rels' Hrels) as [Hlt _].
  pose proof (enumerate_sound fuel (length gens) gens sg rels'
                (comprehend_index_lt _ _ _ Hsg) Hlt) as [_ Hend].
  rewrite Hen in Hend. destruct Hend as [Hend _]. unfold enumerate in Hen.
  apply bind_Done in Hen as (T1 & l1 & l2 & Hfix & Hloop & ->).
  rewrite final_app in Hend.
  destruct (comprehend_elem _ _ _ _ Hsg Hs) as (g & Hg & Hin).
  unfold trace. cbn [comprehend]. rewrite Hg. simpl.
  assert (fwd T1 0 g = Some 0) as Hbase
    by (eapply fix_base_fwd; [done | by left]).
  set (T0 := Cosets_init (length gens) gens) in *.
  assert (wf T0) as HT0 by apply Cosets_init_wf.
  assert (len T0 = 1) as Hlen0 by done.
  pose proof (fix_base_sound False T0 sg HT0 ltac:(lia)
                (comprehend_index_lt _ _ _ Hsg)) as [Hch1 Hq].
  rewrite Hfix in Hch1, Hq. simpl in Hch1, Hq.
  apply adjacent_app_final in Hfwd. rewrite <- Hq in Hfwd.
  apply forward_keeps in Hfwd.
  rewrite <- Hq in Hend. rewrite Hend. by rewrite (Hfwd 0 g 0 Hbase).
Qed.

Lemma subgroup_generators_fix_base_witness :
  trace ["a"; "b"]%char dihedral_table 0 ["a"]%char = Some 0.
Proof.
  apply (subgroup_generators_fix_base 5 ["a"; "b"]%char ["a"]%char
           dihedral_rels dihedral_table dihedral_log).
  - by vm_compute.
  - apply forward_stable_check. by vm_compute.
  - apply (bool_decide_unpack _). by vm_compute.
Defined.

(** Both hypotheses are needed.  A relator of one letter is never
    applied: its row has a window one step wide from the start, so
    [learn] leaves it alone.  And after an overwrite a relator can fail
    at a coset. *)
Lemma one_letter_relator_ignored :
  ∃ T l, solve 10 ["a"]%char [] [["a"]; ["a"; "a"]]%char = Done T l
         ∧ forward_stable l ∧ reverse_stable l
         ∧ trace ["a"]%char T 0 ["a"]%char = Some 1.
Proof.
  eexists _, _. split; [by vm_compute|]. split_and!.
  - apply forward_stable_check. by vm_compute.
  - apply reverse_stable_check. by vm_compute.
  - by vm_compute.
Qed.

Lemma relators_broken_by_overwrite :
  ∃ T l, solve 10 ["a"]%char [] [["a"; "a"]; ["a"; "a"; "a"]]%char = Done T l
         ∧ len T = 2 ∧ trace ["a"]%char T 1 ["a"; "a"]%char = Some 0.
Proof.
  eexists _, _. split; [by vm_compute|]. split; by vm_compute.
Qed.

(** ** A pass that learns nothing *)

(** A call of [learn] that answers [False] leaves a row on which the next
    call, on the same table, does nothing at all: both ends of the window
    are stuck on undefined entries, so neither loop moves and the answer
    is [False] again.  This is what lets the [while True] loop of [solve]
    stop after one pass without news. *)
Theorem learn_nothing_twice (T T' : Cosets) (r r' : Row) (l : list Cosets)
    (HT : wf T) (Hr : row_wf T r)
    (Hrun : learn r T = Done (r', T', false) l) :
  T' = T ∧ l = [] ∧ learn r' T = Done (r', T, false) [].
Proof.
  destruct (learn_run T r HT Hr) as [Hone Hmore].
  destruct (decide (left r + 1 = right r)%Z) as [Hstop|Hstop].
  { rewrite (Hone Hstop) in Hrun. injection Hrun as <- <- <-.
    split_and!; [done..|]. by apply Hone. }
  destruct (Hmore Hstop) as (r1 & Hr1 & Hrel & _ & _ & _ & _ & _ & Hyes & Hno).
  destruct (decide (left r1 + 1 = right r1)%Z) as [Hclosed|Hopen].
  { destruct (Hyes Hclosed) as (g & T1 & _ & _ & Hlearn). congruence. }
  destruct (Hno Hopen) as ((g & Hg & Hfwd) & (h & Hh & Hrev) & Hlearn).
  rewrite Hlearn in Hrun. injection Hrun as <- <- <-.
  split_and!; [done..|]. rewrite <- Hrel in Hg, Hh.
  pose proof (rw_window _ _ Hr1) as Hw1.
  destruct (learn_run T r1 HT Hr1) as [_ Hmore1].
  destruct (Hmore1 Hopen)
    as (r2 & Hr2 & Hrel2 & Hl2 & Hr2' & Hwl & Hwr & _ & Hyes2 & Hno2).
  assert (left r2 = left r1) as Hleft.
  { destruct (decide (left r2 = left r1)) as [|Hne]; [done|]. exfalso.
    rewrite (segment_cons _ (left r1) _ g) in Hwl by (done || lia).
    simpl in Hwl. unfold fwd in Hfwd. by rewrite Hfwd in Hwl. }
  assert (right r2 = right r1) as Hright.
  { destruct (decide (right r2 = right r1)) as [|Hne]; [done|]. exfalso.
    rewrite (segment_snoc _ (right r2) _ h) in Hwr by (done || lia).
    rewrite reverse_app in Hwr. simpl in Hwr. unfold rev in Hrev.
    by rewrite Hrev in Hwr. }
  rewrite Hleft, Hright, !segment_empty in *. simpl in Hwl, Hwr.
  assert (r2 = r1) as ->.
  { destruct r1, r2; simpl in *. congruence. }
  by destruct (Hno2 Hopen) as (_ & _ & ->).
Qed.

Lemma learn_nothing_twice_witness :
  let T := mkCosets ["a"; "b"]%char 2 [[None; None]] [[None; None]] in
  T = T ∧ @nil Cosets = [] ∧
  learn (Row_init [0; 1; 0; 1] 0) T = Done (Row_init [0; 1; 0; 1] 0, T, false) [].
Proof.
  apply (learn_nothing_twice
           (mkCosets ["a"; "b"]%char 2 [[None; None]] [[None; None]]) _
           (Row_init [0; 1; 0; 1] 0)).
  - apply wf_check_wf. apply (bool_decide_unpack _). by vm_compute.
  - split; [simpl; lia | vm_compute; lia | vm_compute; lia |].
    apply (bool_decide_unpack _). by vm_compute.
  - by vm_compute.
Defined.

(** ** [schlafli] *)

Section Schlafli.
Context `{SetOrder}.
Implicit Types (gens : list ascii) (symbol : list Z) (g h : ascii).

Lemma str_mul_nonpos {A} (s : list A) n : (n ≤ 0)%Z → str_mul s n = [].
Proof. intros Hn. unfold str_mul. by replace (Z.to_nat n) with 0 by lia. Qed.

Lemma elem_of_str_mul {A} (s : list A) n x : x ∈ str_mul s n → x ∈ s.
Proof.
  unfold str_mul. induction (Z.to_nat n) as [|k IH]; simpl.
  - by intros ?%elem_of_nil.
  - rewrite elem_of_app. intros [Hx|Hx]; [done | by apply IH].
Qed.

Lemma elem_of_str_mul_pos {A} (s : list A) n x :
  (1 ≤ n)%Z → x ∈ str_mul s n ↔ x ∈ s.
Proof.
  intros Hn. split; [apply elem_of_str_mul|]. unfold str_mul.
  destruct (Z.to_nat n) as [|k] eqn:E; [lia|]. simpl.
  rewrite elem_of_app. by left.
Qed.

Lemma pairwise_lookup_Some {A} (l : list A) i x y :
  pairwise l !! i = Some (x, y) ↔ l !! i = Some x ∧ l !! S i = Some y.
Proof.
  unfold pairwise. rewrite lookup_zip_with_Some, lookup_tail. split.
  - by intros (x' & y' & [= -> ->] & Hx & Hy).
  - intros [Hx Hy]. by exists x, y.
Qed.

Lemma cox_rels_lookup gens symbol i w :
  cox_rels gens symbol !! i = Some w ↔
  ∃ g h m, gens !! i = Some g ∧ gens !! S i = Some h
           ∧ symbol !! i = Some m ∧ w = str_mul [g; h] m.
Proof.
  unfold cox_rels. rewrite list_lookup_fmap, fmap_Some. split.
  - intros ([[g h] m] & (p & m' & [= <- <-] & Hp & Hm)%lookup_zip_with_Some & ->).
    apply pairwise_lookup_Some in Hp as [Hg Hh]. by exists g, h, m.
  - intros (g & h & m & Hg & Hh & Hm & ->). exists ((g, h), m). split; [|done].
    apply lookup_zip_with_Some. exists (g, h), m. split_and!; [done | | done].
    by apply pairwise_lookup_Some.
Qed.

Lemma cox_rels_length gens symbol :
  length gens = length symbol + 1 → length (cox_rels gens symbol) = length symbol.
Proof.
  intros Hlen. unfold cox_rels, pairwise.
  rewrite length_fmap, !length_zip_with.
  destruct gens as [|g gens]; cbn [length tail] in *; lia.
Qed.

Lemma schlafli_unfold fuel gens subgens symbol :
  length gens = length symbol + 1 →
  schlafli fuel gens subgens symbol
  = solve fuel gens subgens (coxeter_rels gens (cox_rels gens symbol)).
Proof. intros Hlen. unfold schlafli. by rewrite decide_True. Qed.

Lemma cox_rels_symbols gens symbol w s :
  w ∈ cox_rels gens symbol → s ∈ w → s ∈ gens.
Proof.
  intros [i Hi]%list_elem_of_lookup_1 Hs.
  apply cox_rels_lookup in Hi as (g & h & m & Hg & Hh & _ & ->).
  apply elem_of_str_mul in Hs.
  apply elem_of_cons in Hs as [->|Hs]; [by eapply list_elem_of_lookup_2|].
  apply list_elem_of_singleton in Hs as ->. by eapply list_elem_of_lookup_2.
Qed.

(** Every letter [coxeter] writes is a generator. *)
Lemma coxeter_rels_symbols gens rels :
  (∀ w s, w ∈ rels → s ∈ w → s ∈ gens) →
  ∀ w s, w ∈ coxeter_rels gens rels → s ∈ w → s ∈ gens.
Proof.
  intros Hrels w s. rewrite coxeter_rels_eq, !elem_of_app.
  intros [Hw|[Hw|Hw]] Hs.
  - by eapply Hrels.
  - apply list_elem_of_fmap in Hw as (link & -> & Hlink).
    rewrite iter_links_perm, elem_of_elements in Hlink.
    apply elem_of_difference in Hlink as [Hlink _].
    apply elem_of_list_to_set, list_elem_of_fmap in Hlink
      as ([g h] & -> & Hgh).
    apply elem_of_permutations2 in Hgh as (i & j & _ & Hi & Hj).
    apply elem_of_str_mul in Hs.
    rewrite iter_chars_perm, elem_of_elements, elem_of_frozenset in Hs.
    simpl in Hs.
    apply elem_of_cons in Hs as [->|Hs]; [by eapply list_elem_of_lookup_2|].
    apply list_elem_of_singleton in Hs as ->. by eapply list_elem_of_lookup_2.
  - apply list_elem_of_fmap in Hw as (g & -> & Hg).
    apply elem_of_cons in Hs as [->|Hs]; [done|].
    by apply list_elem_of_singleton in Hs as ->.
Qed.

Lemma schlafli_blank fuel gens subgens symbol :
  length gens = length symbol + 1 →
  (∀ s, s ∈ subgens → s ∈ gens) →
  (∃ m, m ∈ symbol ∧ (m ≤ 0)%Z) →
  ∃ l, schlafli (S fuel) gens subgens symbol = Raise IndexError l.
Proof.
  intros Hlen Hsub (m & [i Hi]%list_elem_of_lookup_1 & Hm).
  rewrite schlafli_unfold by done. apply solve_blank_relator; [|done|].
  - rewrite coxeter_rels_eq, elem_of_app. left.
    pose proof (lookup_lt_Some _ _ _ Hi) as Hlt.
    destruct (lookup_lt_is_Some_2 gens i ltac:(lia)) as [g Hg].
    destruct (lookup_lt_is_Some_2 gens (S i) ltac:(lia)) as [h Hh].
    apply (list_elem_of_lookup_2 _ i), cox_rels_lookup.
    exists g, h, m. split_and!; [done..|]. by rewrite str_mul_nonpos.
  - apply coxeter_rels_symbols. apply cox_rels_symbols.
Qed.

(** With a symbol of positive numbers, the pairs that [schlafli] gives a
    relator are the neighbours in [gens]. *)
Lemma given_cox_rels gens symbol g h :
  NoDup gens → length gens = length symbol + 1 →
  Forall (λ m, (1 ≤ m)%Z) symbol → g ≠ h →
  given (cox_rels gens symbol) g h ↔ neighbours gens g h.
Proof.
  intros Hnd Hlen Hpos Hne. split.
  - intros (w & [i Hi]%list_elem_of_lookup_1 & Hletters).
    apply cox_rels_lookup in Hi as (a & b & m & Ha & Hb & Hm & ->).
    pose proof (Forall_lookup_1 _ _ _ _ Hpos Hm) as Hm1. simpl in Hm1.
    assert (∀ x, x = a ∨ x = b ↔ x = g ∨ x = h) as Hab.
    { intros x. rewrite <- Hletters, elem_of_str_mul_pos by done.
      rewrite elem_of_cons, list_elem_of_singleton. done. }
    exists i.
    destruct (proj1 (Hab a) (or_introl eq_refl)) as [->| ->].
    + left. split; [done|].
      destruct (proj2 (Hab h) (or_intror eq_refl)) as [->| ->]; done.
    + right. split; [done|].
      destruct (proj2 (Hab g) (or_introl eq_refl)) as [->| ->]; done.
  - intros [i Hi].
    assert (i < length symbol) as Hlt.
    { destruct Hi as [[_ Hi]|[_ Hi]]; apply lookup_lt_Some in Hi; lia. }
    destruct (lookup_lt_is_Some_2 symbol i Hlt) as [m Hm].
    pose proof (Forall_lookup_1 _ _ _ _ Hpos Hm) as Hm1. simpl in Hm1.
    destruct Hi as [[Hg Hh]|[Hh Hg]].
    + exists (str_mul [g; h] m). split.
      * apply (list_elem_of_lookup_2 _ i), cox_rels_lookup. by exists g, h, m.
      * intros x. rewrite elem_of_str_mul_pos by done.
        by rewrite elem_of_cons, list_elem_of_singleton.
    + exists (str_mul [h; g] m). split.
      * apply (list_elem_of_lookup_2 _ i), cox_rels_lookup. by exists h, g, m.
      * intros x. rewrite elem_of_str_mul_pos by done.
        rewrite elem_of_cons, list_elem_of_singleton. tauto.
Qed.
End Schlafli.

(** A number of the Schlafli symbol that is zero or negative makes
    [schlafli] raise [IndexError]: the product [''.join(pair) * coeff] is
    the empty string, an empty relator for [solve]. *)
Theorem schlafli_nonpositive_raises (O : SetOrder) (fuel : nat)
    (gens subgens : list ascii) (symbol : list Z)
    (Hlen : length gens = length symbol + 1)
    (Hsub : ∀ s, s ∈ subgens → s ∈ gens)
    (Hzero : ∃ m, m ∈ symbol ∧ (m ≤ 0)%Z) :
  ∃ l, schlafli (S fuel) gens subgens symbol = Raise IndexError l.
Proof. by apply schlafli_blank. Qed.

Lemma schlafli_nonpositive_raises_witness :
  ∃ l, @schlafli canonical_order 1 ["a"; "b"]%char ["a"]%char [0%Z]
       = Raise IndexError l.
Proof.
  apply (schlafli_nonpositive_raises canonical_order 0 ["a"; "b"]%char
           ["a"]%char [0%Z]).
  - reflexivity.
  - intros s Hs. apply list_elem_of_singleton in Hs as ->.
    apply (bool_decide_unpack _). by vm_compute.
  - exists 0%Z. split; [|lia]. apply (bool_decide_unpack _). by vm_compute.
Defined.

(** What [schlafli] hands to [solve].  For an alphabet of distinct
    symbols, one symbol more than the Schlafli symbol has numbers, all of
    them positive, [schlafli(gens, subgens, symbol)] is [solve] applied to
    three groups of relators: for each number [m] of the symbol, at
    position [i], the relator [(gh)^m] of the neighbours [g = gens[i]],
    [h = gens[i+1]]; for each pair of distinct generators that are not
    neighbours, the commuting relator [(gh)(gh)], in exactly one of its two
    orientations; and the relator [gg] of every generator. *)
Theorem schlafli_refines_solve (O : SetOrder) (fuel : nat)
    (gens subgens : list ascii) (symbol : list Z)
    (Hgens : NoDup gens) (Hlen : length gens = length symbol + 1)
    (Hpos : Forall (λ m, (1 ≤ m)%Z) symbol) :
  ∃ adj comm : list (list ascii),
    schlafli fuel gens subgens symbol
    = solve fuel gens subgens (adj ++ comm ++ ((λ g, [g; g]) <$> gens))
    ∧ length adj = length symbol
    ∧ (∀ i m, symbol !! i = Some m →
         ∃ g h, gens !! i = Some g ∧ gens !! S i = Some h
                ∧ adj !! i = Some (str_mul [g; h] m))
    ∧ NoDup comm
    ∧ (∀ w, w ∈ comm →
         ∃ g h, w = [g; h; g; h] ∧ g ∈ gens ∧ h ∈ gens ∧ g ≠ h
                ∧ ¬ neighbours gens g h)
    ∧ (∀ g h, g ∈ gens → h ∈ gens → g ≠ h → ¬ neighbours gens g h →
         ([g; h; g; h] ∈ comm ∨ [h; g; h; g] ∈ comm)
         ∧ ¬ ([g; h; g; h] ∈ comm ∧ [h; g; h; g] ∈ comm)).
Proof.
  exists (cox_rels gens symbol), (commuting gens (cox_rels gens symbol)).
  split_and!.
  - rewrite schlafli_unfold by done. by rewrite coxeter_rels_eq.
  - by apply cox_rels_length.
  - intros i m Hm. pose proof (lookup_lt_Some _ _ _ Hm) as Hlt.
    destruct (lookup_lt_is_Some_2 gens i ltac:(lia)) as [g Hg].
    destruct (lookup_lt_is_Some_2 gens (S i) ltac:(lia)) as [h Hh].
    exists g, h. split_and!; [done..|]. apply cox_rels_lookup. by exists g, h, m.
  - apply commuting_NoDup.
  - intros w Hw.
    apply elem_of_commuting in Hw as (g & h & -> & Hg & Hh & Hne & Hnot); [|done].
    exists g, h. split_and!; [done..|]. by rewrite <- given_cox_rels.
  - intros g h Hg Hh Hne Hnot. split.
    + apply commuting_complete; [done..|]. by rewrite given_cox_rels.
    + by apply commuting_one_orientation.
Qed.

Lemma schlafli_refines_solve_witness :
  ∃ adj comm : list (list ascii),
    @schlafli canonical_order 5 ["a"; "b"; "c"]%char ["a"]%char [5; 3]%Z
    = solve 5 ["a"; "b"; "c"]%char ["a"]%char
        (adj ++ comm ++ ((λ g, [g; g]) <$> ["a"; "b"; "c"]%char))
    ∧ length adj = length [5; 3]%Z
    ∧ (∀ i m, [5; 3]%Z !! i = Some m →
         ∃ g h, ["a"; "b"; "c"]%char !! i = Some g
                ∧ ["a"; "b"; "c"]%char !! S i = Some h
                ∧ adj !! i = Some (str_mul [g; h] m))
    ∧ NoDup comm
    ∧ (∀ w, w ∈ comm →
         ∃ g h, w = [g; h; g; h] ∧ g ∈ ["a"; "b"; "c"]%char
                ∧ h ∈ ["a"; "b"; "c"]%char ∧ g ≠ h
                ∧ ¬ neighbours ["a"; "b"; "c"]%char g h)
    ∧ (∀ g h, g ∈ ["a"; "b"; "c"]%char → h ∈ ["a"; "b"; "c"]%char → g ≠ h →
         ¬ neighbours ["a"; "b"; "c"]%char g h →
         ([g; h; g; h] ∈ comm ∨ [h; g; h; g] ∈ comm)
         ∧ ¬ ([g; h; g; h] ∈ comm ∧ [h; g; h; g] ∈ comm)).
Proof.
  apply (schlafli_refines_solve canonical_order 5 ["a"; "b"; "c"]%char
           ["a"]%char [5; 3]%Z).
  - apply (bool_decide_unpack _). by vm_compute.
  - reflexivity.
  - apply (bool_decide_unpack _). by vm_compute.
Defined.

(** ** A saturated table ends the enumeration *)

Section Saturated.
Implicit Types (T : Cosets) (r : Row) (rows : list Row).

Lemma set_saturated T c g t T' :
  saturated T → set T c g t = Ok T' → saturated T'.
Proof.
  intros Hsat Hset a b Ha Hb. rewrite (set_fwd _ _ _ _ _ a b Hset).
  case_decide; [eauto|]. apply Hsat.
  - by rewrite <- (set_len _ _ _ _ _ Hset).
  - by rewrite <- (set_n_gens _ _ _ _ _ Hset).
Qed.

(** In a saturated table [learn] never stops short: it answers [False]
    only on a row whose window is one step wide already. *)
Lemma learn_full T r :
  wf T → saturated T → row_wf T r →
  ∃ r' T' (b : bool) l,
    learn r T = Done (r', T', b) l
    ∧ wf T' ∧ saturated T' ∧ len T' = len T ∧ n_gens T' = n_gens T
    ∧ row_wf T' r'.
Proof.
  intros HT Hsat Hr. destruct (learn_run T r HT Hr) as [Hone Hmore].
  destruct (decide (left r + 1 = right r)%Z) as [Hstop|Hstop].
  { exists r, T, false, []. by rewrite (Hone Hstop). }
  destruct (Hmore Hstop) as (r1 & Hr1 & Hrel & _ & _ & _ & _ & _ & Hyes & Hno).
  destruct (decide (left r1 + 1 = right r1)%Z) as [Hclosed|Hopen].
  - destruct (Hyes Hclosed) as (g & T1 & Hg & Hset & Hlearn).
    exists r1, T1, true, [T1].
    pose proof (set_len _ _ _ _ _ Hset) as Hlen.
    pose proof (set_n_gens _ _ _ _ _ Hset) as Hn.
    split_and!; [done | | by eapply set_saturated | done | done |].
    + exact (set_wf _ _ _ _ _ HT (rw_left _ _ Hr1) (rw_right _ _ Hr1) Hset).
    + apply (row_wf_grow T); [done | lia | done].
  - destruct (Hno Hopen) as ((g & Hg & Hnone) & _). exfalso.
    rewrite <- Hrel in Hg.
    pose proof (Forall_lookup_1 _ _ _ _ (rw_gens _ _ Hr1) Hg) as Hgn.
    destruct (Hsat (left_coset r1) g (rw_left _ _ Hr1) Hgn) as [v Hv].
    congruence.
Qed.

Lemma scan_rows_full T rows :
  wf T → saturated T → Forall (row_wf T) rows →
  ∃ rows' T' (b : bool) l,
    scan_rows rows T = Done (rows', T', b) l
    ∧ wf T' ∧ saturated T' ∧ len T' = len T ∧ n_gens T' = n_gens T
    ∧ Forall (row_wf T') rows'.
Proof.
  intros HT Hsat. induction rows as [|r rest IH]; intros Hrows.
  { exists [], T, false, []. by split_and!. }
  apply Forall_cons in Hrows as [Hr Hrest].
  destruct (IH Hrest)
    as (rest' & c1 & b1 & l1 & Hscan & HT1 & Hsat1 & Hlen1 & Hn1 & Hrest').
  destruct (learn_full c1 r HT1 Hsat1)
    as (r' & c2 & b2 & l2 & Hlearn & HT2 & Hsat2 & Hlen2 & Hn2 & Hr').
  { apply (row_wf_grow T); [done | lia | done]. }
  exists (if b2 then rest' else r' :: rest'), c2, (b2 || b1), (l1 ++ l2 ++ []).
  cbn [scan_rows]. rewrite Hscan. cbn [bind]. rewrite Hlearn. cbn [bind ret].
  split_and!; [done | done | done | lia | congruence |].
  assert (Forall (row_wf c2) rest') as Hrest2.
  { eapply Forall_impl; [exact Hrest'|]. intros r0 Hr0. simpl.
    apply (row_wf_grow c1); [done | lia | done]. }
  destruct b2; [done | by constructor].
Qed.

Lemma learn_all_full n T rows :
  length rows < n → wf T → saturated T → Forall (row_wf T) rows →
  ∃ rows' T' l,
    learn_all n rows T = Done (rows', T') l
    ∧ wf T' ∧ saturated T' ∧ len T' = len T ∧ n_gens T' = n_gens T.
Proof.
  revert T rows. induction n as [|n IH]; intros T rows Hn HT Hsat Hrows; [lia|].
  destruct (scan_rows_full T rows HT Hsat Hrows)
    as (rows1 & T1 & b & l1 & Hscan & HT1 & Hsat1 & Hlen1 & Hn1 & Hrows1).
  pose proof (scan_rows_length _ _ _ _ _ _ Hscan) as Hshrink.
  cbn [learn_all]. rewrite Hscan. cbn [bind]. destruct b.
  - destruct (IH T1 rows1 ltac:(lia) HT1 Hsat1 Hrows1)
      as (rows2 & T2 & l2 & -> & HT2 & Hsat2 & Hlen2 & Hn2).
    exists rows2, T2, (l1 ++ l2). split_and!; [done | done | done | lia | congruence].
  - exists rows1, T1, (l1 ++ []). by split_and!.
Qed.

(** The [while rows] loop on a saturated table: one round, no coset
    added. *)
Lemma solve_loop_full fuel rels T rows :
  wf T → saturated T → Forall (row_wf T) rows →
  ∃ T' l,
    solve_loop (S fuel) rels rows T = Done T' l
    ∧ wf T' ∧ saturated T' ∧ len T' = len T ∧ n_gens T' = n_gens T.
Proof.
  intros HT Hsat Hrows. destruct rows as [|r0 rows0].
  { exists T, []. by split_and!. }
  cbn [solve_loop]. set (rows := r0 :: rows0) in *. clearbody rows.
  destruct (learn_all_full (S (length rows)) T rows ltac:(lia) HT Hsat Hrows)
    as (rows1 & T1 & l1 & -> & HT1 & Hsat1 & Hlen1 & Hn1).
  cbn [bind].
  destruct (add_coset_spec T1 HT1)
    as [[-> _]|(i & g & T2 & _ & Hi & Hg & Hnone & _)].
  - cbn [bind ret]. eexists _, _. by split_and!.
  - destruct (Hsat1 i g Hi Hg) as [v Hv]. congruence.
Qed.
End Saturated.

Lemma solve_whole_group fuel gens subgens rels :
  NoDup gens →
  (∀ g, g ∈ gens → g ∈ subgens) → (∀ s, s ∈ subgens → s ∈ gens) →
  (∀ w s, w ∈ rels → s ∈ w → s ∈ gens) → [] ∉ rels →
  ∃ T l, solve (S fuel) gens subgens rels = Done T l
         ∧ len T = 1 ∧ ∀ s, s ∈ gens → trace gens T 0 [s] = Some 0.
Proof.
  intros Hnd Hall Hsub Hrels Hne. rewrite solve_unfold.
  destruct (comprehend_all_Ok (comprehend (list_index gens)) rels)
    as [rels' Hrels'].
  { intros w Hw. apply comprehend_all_Ok. intros s Hs.
    apply list_index_elem. by eapply Hrels. }
  destruct (comprehend_all_Ok (list_index gens) subgens) as [sg Hsg].
  { intros s Hs. by apply list_index_elem, Hsub. }
  rewrite Hrels', Hsg. cbn zeta.
  destruct (mapped_rels _ _ _ Hrels') as [Hlt Hnil].
  set (T0 := Cosets_init (length gens) gens).
  assert (wf T0) as HT0 by apply Cosets_init_wf.
  assert (len T0 = 1) as Hlen0 by done.
  unfold enumerate. fold T0.
  pose proof (fix_base_sound False T0 sg HT0 ltac:(lia)
                (comprehend_index_lt _ _ _ Hsg)) as [Hchain Hpost].
  destruct (fix_base sg T0) as [T1 l1|e l1|l1] eqn:Hfix;
    [|by destruct Hpost | by apply fix_base_not_Paused in Hfix].
  simpl in Hchain, Hpost.
  assert (wf T1) as HT1 by (rewrite Hpost; by apply chain_wf).
  assert (n_gens T1 = length gens) as Hn1
    by (rewrite Hpost, chain_n_gens; done).
  pose proof (fix_base_len _ _ _ _ Hfix) as Hlen1. rewrite Hlen0 in Hlen1.
  assert (saturated T1) as Hsat1.
  { intros c g Hc Hg. assert (c = 0) as -> by lia. rewrite Hn1 in Hg.
    destruct (lookup_lt_is_Some_2 gens g Hg) as [s Hs].
    destruct (comprehend_elem _ _ _ _ Hsg (Hall s (list_elem_of_lookup_2 _ _ _ Hs)))
      as (g' & Hg' & Hin).
    assert (g' = g) as ->.
    { apply list_index_Ok in Hg' as [_ Hg']. by eapply NoDup_lookup. }
    exists 0. eapply fix_base_fwd; [done | by left]. }
  destruct (solve_loop_full fuel rels' T1 ((λ rl, Row_init rl 0) <$> rels')
              HT1 Hsat1) as (T & l2 & Hloop & HT & Hsat & Hlen & Hn).
  { apply Forall_fmap, Forall_forall. intros rl Hrl. simpl.
    apply Row_init_wf; [| rewrite Hn1 | lia].
    - intros ->. by apply Hne, Hnil.
    - exact (proj1 (Forall_forall _ _) Hlt rl Hrl). }
  cbn [bind]. rewrite Hloop. eexists _, _. split; [done|].
  split; [lia|]. intros s Hs. unfold trace. cbn [comprehend].
  destruct (list_index_elem gens s Hs) as [g Hg]. rewrite Hg. simpl.
  apply list_index_Ok in Hg as [Hg _].
  destruct (Hsat 0 g ltac:(lia) ltac:(lia)) as [t Ht].
  pose proof (wf_fwd _ HT _ _ _ Ht) as Hbound. unfold fwd in Ht.
  rewrite Ht. f_equal. lia.
Qed.

(** When the subgroup generators are all the generators, [solve] returns
    after one turn of its outer loop, with a table of one coset that every
    generator fixes.  The alphabet must not repeat a symbol, every symbol
    used must be in it, and no relator may be empty. *)
Theorem whole_group_one_coset (fuel : nat) (gens subgens : list ascii)
    (rels : list (list ascii))
    (Hgens : NoDup gens)
    (Hall : Forall (λ g, g ∈ subgens) gens)
    (Hsub : Forall (λ s, s ∈ gens) subgens)
    (Hrels : Forall (Forall (λ s, s ∈ gens)) rels)
    (Hne : [] ∉ rels) :
  ∃ T l, solve (S fuel) gens subgens rels = Done T l
         ∧ len T = 1 ∧ ∀ s, s ∈ gens → trace gens T 0 [s] = Some 0.
Proof.
  apply solve_whole_group; [done | | | | done].
  - by apply Forall_forall.
  - by apply Forall_forall.
  - intros w s Hw Hs.
    exact (proj1 (Forall_forall _ _)
             (proj1 (Forall_forall _ _) Hrels w Hw) s Hs).
Qed.

Lemma whole_group_one_coset_witness :
  ∃ T l, solve 1 ["a"; "b"]%char ["b"; "a"]%char
           [["a"; "b"; "a"; "b"; "a"; "b"]; ["a"; "a"]]%char = Done T l
         ∧ len T = 1
         ∧ ∀ s, s ∈ ["a"; "b"]%char → trace ["a"; "b"]%char T 0 [s] = Some 0.
Proof.
  apply (whole_group_one_coset 0 ["a"; "b"]%char ["b"; "a"]%char
           [["a"; "b"; "a"; "b"; "a"; "b"]; ["a"; "a"]]%char).
  - apply (bool_decide_unpack _). by vm_compute.
  - apply (bool_decide_unpack _). by vm_compute.
  - apply (bool_decide_unpack _). by vm_compute.
  - apply (bool_decide_unpack _). by vm_compute.
  - apply (bool_decide_unpack _). by vm_compute.
Defined.

(** ** The generators act as permutations *)

(** A total injective map of the cosets into themselves reaches every
    coset. *)
Lemma column_onto T g :
  wf T → saturated T → bisymmetric T → g < n_gens T →
  ∀ t, t < len T → ∃ c, c < len T ∧ fwd T c g = Some t.
Proof.
  intros HT Hsat Hsym Hg t Ht.
  set (f := λ c, default 0 (fwd T c g)).
  assert (∀ c, c < len T → fwd T c g = Some (f c)) as Hf.
  { intros c Hc. unfold f. by destruct (Hsat c g Hc Hg) as [v ->]. }
  assert (NoDup (f <$> seq 0 (len T))) as Hnd.
  { apply NoDup_fmap_2_strong; [|apply NoDup_seq].
    intros x y Hx%elem_of_seq Hy%elem_of_seq Heq.
    pose proof (Hf x ltac:(lia)) as Hfx. pose proof (Hf y ltac:(lia)) as Hfy.
    rewrite Heq in Hfx. apply Hsym in Hfx, Hfy. congruence. }
  assert (f <$> seq 0 (len T) ≡ₚ seq 0 (len T)) as Hperm.
  { apply submseteq_length_Permutation.
    - apply NoDup_submseteq; [done|].
      intros z (c & -> & Hc%elem_of_seq)%list_elem_of_fmap.
      apply elem_of_seq. split; [lia|]. simpl.
      exact (wf_fwd _ HT _ _ _ (Hf c ltac:(lia))).
    - by rewrite length_fmap. }
  assert (t ∈ f <$> seq 0 (len T)) as Hin.
  { rewrite Hperm. apply elem_of_seq. lia. }
  apply list_elem_of_fmap in Hin as (c & -> & Hc%elem_of_seq).
  exists c. split; [lia|]. apply Hf. lia.
Qed.

(** In a run of [solve] with at least one relator that returns a table
    without having overwritten a defined entry, every generator acts on
    the cosets as a permutation: each coset is the image, under the
    generator, of exactly one coset. *)
Theorem columns_are_permutations (fuel : nat) (gens subgens : list ascii)
    (rels : list (list ascii)) (T : Cosets) (l : list Cosets)
    (Hrels : rels ≠ [])
    (Hrun : solve fuel gens subgens rels = Done T l)
    (Hfwd : forward_stable l) (Hrev : reverse_stable l) :
  ∀ g t, g < n_gens T → t < len T →
    ∃ c, c < len T ∧ fwd T c g = Some t ∧ ∀ c', fwd T c' g = Some t → c' = c.
Proof.
  intros g t Hg Ht.
  pose proof (solve_run fuel gens subgens rels) as H. rewrite Hrun in H.
  cbn zeta in H. destruct H as (l' & -> & Hchain & HT & Hsat).
  set (T0 := Cosets_init (length gens) gens) in *.
  assert (wf T) as Hwf.
  { rewrite HT. apply chain_wf; [apply Cosets_init_wf | done]. }
  assert (bisymmetric T) as Hsym.
  { rewrite HT. apply chain_bisymmetric; [apply Cosets_init_bisymmetric | done |].
    by apply stable_forward. }
  destruct (column_onto T g Hwf (Hsat Hrels) Hsym Hg t Ht) as (c & Hc & Hct).
  exists c. split_and!; [done..|]. intros c' Hc't.
  apply Hsym in Hct, Hc't. congruence.
Qed.

Lemma columns_are_permutations_witness :
  ∃ c, c < len dihedral_table ∧ fwd dihedral_table c 1 = Some 3
       ∧ ∀ c', fwd dihedral_table c' 1 = Some 3 → c' = c.
Proof.
  apply (columns_are_permutations 5 ["a"; "b"]%char ["a"]%char dihedral_rels
           dihedral_table dihedral_log).
  - done.
  - by vm_compute.
  - apply forward_stable_check. by vm_compute.
  - apply reverse_stable_check. by vm_compute.
  - vm_compute. lia.
  - vm_compute. lia.
Defined.
